(** * thinfilm2.hh: characteristic-matrix simulation of a multilayer coating

    A shallow embedding of [src/thinfilm2.hh] (namespace [thinfilm]) and the
    properties of its specification.

    Numbers.  The C++ type [double] is read as the real numbers [R] and
    [std::complex<double>] as pairs of reals: arithmetic is exact, there is
    no rounding, no infinity and no NaN.  The functions of the C++ standard
    library that the header calls ([log], [cos], [sin], [std::norm],
    [std::abs], [std::arg], [std::atan2]) are given their mathematical
    meaning on the principal branch.

    Signed zeros.  The reals have one zero and an IEEE [double] has two.
    The sign of a zero decides the result of [std::sqrt] on its branch cut,
    the negative real axis, and the header reaches the cut on ordinary
    arguments: in [acos], and in the two cosines of [simulate], whose
    argument [1. - x] has the imaginary part [-0.0] when the one of [x] is
    [+0.0].  Module [SignedZero] keeps the IEEE sign bit next to the exact
    value, with the rules of IEEE arithmetic and of the complex operators of
    the C++ library (libstdc++, on the runtime of GCC) for the sign of a
    zero result.  [simulate] takes its square roots with [Csqrt_signed], on
    the side of the cut that this sign bit selects.  The arguments of
    [simulate] have positive zeros: a real or imaginary part of value zero
    is [+0.0], as in [complex(x)] and [complex(x, 0.0)].  [std::arg] on the
    negative real axis is given the value [PI], the one for the imaginary
    part [+0.0].

    Integers.  [int] is a 32-bit two's complement integer, written as a [Z]
    with its wrap-around.

    Memory.  The operands of [Matrix22::operator*=] are references, so that
    operator is also given on a store of matrices where the two operands may
    be the same object.  The five output pointers of [simulate] are either
    null or the addresses of five separate [double] objects. *)

From Stdlib Require Import Reals Lra Lia ZArith String List.
Import ListNotations.

Open Scope R_scope.

(** ** Complex numbers: [typedef std::complex<double> complex] *)

Abbreviation double := R (only parsing).

Record complex : Type := mkC { re : double; im : double }.

Definition RtoC (x : double) : complex := mkC x 0.

(** [const complex onei(0, 1)] *)
Definition onei : complex := mkC 0 1.

Definition Cadd (z w : complex) : complex :=
  mkC (re z + re w) (im z + im w).

Definition Csub (z w : complex) : complex :=
  mkC (re z - re w) (im z - im w).

Definition Cneg (z : complex) : complex :=
  mkC (- re z) (- im z).

Definition Cmul (z w : complex) : complex :=
  mkC (re z * re w - im z * im w) (re z * im w + im z * re w).

Definition Cdiv (z w : complex) : complex :=
  let d := re w * re w + im w * im w in
  mkC ((re z * re w + im z * im w) / d) ((im z * re w - re z * im w) / d).

(** Mixed operators of [<complex>]: a [double] on one side. *)

(** [x - z] *)
Definition RsubC (x : double) (z : complex) : complex :=
  mkC (x - re z) (- im z).

(** [z - x] *)
Definition CsubR (z : complex) (x : double) : complex :=
  mkC (re z - x) (im z).

(** [x * z] *)
Definition RmulC (x : double) (z : complex) : complex :=
  mkC (x * re z) (x * im z).

(** [z * x] *)
Definition CmulR (z : complex) (x : double) : complex :=
  mkC (re z * x) (im z * x).

(** [z / x] *)
Definition CdivR (z : complex) (x : double) : complex :=
  mkC (re z / x) (im z / x).

(** [x / z]: the scalar is promoted to a complex number first. *)
Definition RdivC (x : double) (z : complex) : complex :=
  Cdiv (RtoC x) z.

(** [std::norm]: the squared modulus, [norm(3+4i) = 25]. *)
Definition Cnorm (z : complex) : double :=
  re z * re z + im z * im z.

(** [std::abs]: the modulus. *)
Definition Cabs (z : complex) : double :=
  sqrt (Cnorm z).

(** [std::atan2 (y, x)]: the angle of the point [(x, y)], in [(-PI, PI]]. *)
Definition atan2 (y x : double) : double :=
  if Rlt_dec 0 x then atan (y / x)
  else if Rlt_dec x 0 then
         if Rle_dec 0 y then atan (y / x) + PI else atan (y / x) - PI
  else if Rlt_dec 0 y then PI / 2
  else if Rlt_dec y 0 then - (PI / 2)
  else 0.

(** [std::arg]: the phase angle. *)
Definition Carg (z : complex) : double :=
  atan2 (im z) (re z).

(** The principal square root of a complex number: the result lies in the
    right half plane and has the sign of the imaginary part of its argument;
    the negative real axis is sent to the positive imaginary axis.  This is
    [std::sqrt] for an argument whose imaginary part is not [-0.0]. *)
Definition Csqrt (z : complex) : complex :=
  let m := Cabs z in
  mkC (sqrt ((m + re z) / 2))
      ((if Rle_dec 0 (im z) then 1 else -1) * sqrt ((m - re z) / 2)).

(** [log] on complex numbers, principal branch. *)
Definition Clog (z : complex) : complex :=
  mkC (ln (Cabs z)) (Carg z).

(** [cos] and [sin] on complex numbers. *)
Definition Ccos (z : complex) : complex :=
  mkC (cos (re z) * cosh (im z)) (- (sin (re z) * sinh (im z))).

Definition Csin (z : complex) : complex :=
  mkC (sin (re z) * cosh (im z)) (cos (re z) * sinh (im z)).

(** [M_PI] *)
Definition M_PI : double := PI.

(** ** [asin] and [acos] for complex numbers

    With one zero: [std::sqrt] is the principal square root here.  The two
    functions with the sign of the zeros are in module [SignedZero]. *)

(** [return -onei * log(onei * z + sqrt(1.0 - z * z));] *)
Definition asin (z : complex) : complex :=
  Cmul (Cneg onei) (Clog (Cadd (Cmul onei z) (Csqrt (RsubC 1 (Cmul z z))))).

(** [return -onei * log(z + sqrt(z * z - 1.0));] *)
Definition acos (z : complex) : complex :=
  Cmul (Cneg onei) (Clog (Cadd z (Csqrt (CsubR (Cmul z z) 1)))).

(** ** Signed zeros

    The model above has one zero.  An IEEE [double] has two, and the sign of
    a zero selects the side of a branch cut: [std::sqrt] gives its result
    the sign of the imaginary part of its argument, also when that part is
    a zero.  This module keeps the sign bit next to the exact value, with
    the IEEE rules for the sign of a zero result, for the operations that
    [acos] uses on finite numbers. *)

Module SignedZero.

(** A [double]: its exact value and its sign bit.  The bit is [true] for
    negative numbers and for [-0.0]. *)
Record sdouble : Type := mkD { val : R; signbit : bool }.

(** The sign bit of a result of value [v]; [zero] is the bit to use when
    [v] is zero. *)
Definition sign_of (v : R) (zero : bool) : bool :=
  if Rlt_dec v 0 then true else if Rlt_dec 0 v then false else zero.

(** A literal: [0.0] is the positive zero. *)
Definition lit (x : R) : sdouble := mkD x (sign_of x false).

(** [x * y]: the sign bits are xor-ed. *)
Definition Dmul (x y : sdouble) : sdouble :=
  mkD (val x * val y) (xorb (signbit x) (signbit y)).

(** [x + y]: a zero sum is [-0.0] only when both operands are [-0.0]; an
    exact cancellation gives [+0.0]. *)
Definition Dadd (x y : sdouble) : sdouble :=
  mkD (val x + val y) (sign_of (val x + val y) (signbit x && signbit y)).

(** [- x] *)
Definition Dopp (x : sdouble) : sdouble :=
  mkD (- val x) (negb (signbit x)).

(** [x - y], that is [x + (- y)] *)
Definition Dsub (x y : sdouble) : sdouble := Dadd x (Dopp y).

(** [std::atan2 (y, x)], finite arguments.  On the negative real axis the
    sign bit of [y] decides between [PI] and [- PI]. *)
Definition Datan2 (y x : sdouble) : sdouble :=
  if Rlt_dec 0 (val x) then
    mkD (atan (val y / val x)) (signbit y)
  else if Rlt_dec (val x) 0 then
    if signbit y then mkD (atan (val y / val x) - PI) true
    else mkD (atan (val y / val x) + PI) false
  else if Rlt_dec 0 (val y) then mkD (PI / 2) false
  else if Rlt_dec (val y) 0 then mkD (- (PI / 2)) true
  else if signbit x then mkD (if signbit y then - PI else PI) (signbit y)
  else mkD 0 (signbit y).

Record scomplex : Type := mkSC { re : sdouble; im : sdouble }.

(** [complex(x, 0.0)] *)
Definition real (x : R) : scomplex := mkSC (lit x) (lit 0).

Definition onei : scomplex := mkSC (lit 0) (lit 1).

Definition Cadd (z w : scomplex) : scomplex :=
  mkSC (Dadd (re z) (re w)) (Dadd (im z) (im w)).

Definition Cneg (z : scomplex) : scomplex :=
  mkSC (Dopp (re z)) (Dopp (im z)).

Definition Cmul (z w : scomplex) : scomplex :=
  mkSC (Dsub (Dmul (re z) (re w)) (Dmul (im z) (im w)))
       (Dadd (Dmul (re z) (im w)) (Dmul (im z) (re w))).

(** [z - x]: the scalar is subtracted from the real part. *)
Definition CsubR (z : scomplex) (x : sdouble) : scomplex :=
  mkSC (Dsub (re z) x) (im z).

(** [std::abs] *)
Definition Cabs (z : scomplex) : R :=
  sqrt (val (re z) * val (re z) + val (im z) * val (im z)).

(** [std::sqrt], with the semantics of C's [csqrt]: the real part is not
    negative and the imaginary part has the sign bit of the imaginary part
    of the argument. *)
Definition Csqrt (z : scomplex) : scomplex :=
  let m := Cabs z in
  mkSC (mkD (sqrt ((m + val (re z)) / 2)) false)
       (mkD ((if signbit (im z) then -1 else 1)
             * sqrt ((m - val (re z)) / 2))
            (signbit (im z))).

(** [log]: [(log (abs z), arg z)] *)
Definition Clog (z : scomplex) : scomplex :=
  mkSC (lit (ln (Cabs z))) (Datan2 (im z) (re z)).

(** [return -onei * log(z + sqrt(z * z - 1.0));] *)
Definition acos (z : scomplex) : scomplex :=
  Cmul (Cneg onei) (Clog (Cadd z (Csqrt (CsubR (Cmul z z) (lit 1))))).

(** [x - z]: the library negates [z] and adds the scalar to the real
    part. *)
Definition RsubC (x : sdouble) (z : scomplex) : scomplex :=
  mkSC (Dadd (Dopp (re z)) x) (Dopp (im z)).

(** [return -onei * log(onei * z + sqrt(1.0 - z * z));] *)
Definition asin (z : scomplex) : scomplex :=
  Cmul (Cneg onei)
       (Clog (Cadd (Cmul onei z) (Csqrt (RsubC (lit 1) (Cmul z z))))).

(** [x / y], for [y] other than zero: the sign bits are xor-ed. *)
Definition Ddiv (x y : sdouble) : sdouble :=
  mkD (val x / val y) (xorb (signbit x) (signbit y)).

(** [z / w] on finite numbers, as the runtime routine of the compiler
    divides (Smith's method): with [z = a + i b] and [w = c + i d],
    [ratio = c / d], [denom = c * ratio + d],
    [((a * ratio + b) / denom, (b * ratio - a) / denom)] when
    [fabs(c) < fabs(d)], and [ratio = d / c], [denom = d * ratio + c],
    [((b * ratio + a) / denom, (b - a * ratio) / denom)] otherwise.  The
    routine scales its operands by positive constants when they are very
    large or very small, and forms [a * ratio] as [c * (a / d)] or
    [d * (a / c)] when the ratio underflows or is zero: the values, which
    are exact here, and the sign bits are the same. *)
Definition Cdiv (z w : scomplex) : scomplex :=
  if Rlt_dec (Rabs (val (re w))) (Rabs (val (im w))) then
    let ratio := Ddiv (re w) (im w) in
    let denom := Dadd (Dmul (re w) ratio) (im w) in
    mkSC (Ddiv (Dadd (Dmul (re z) ratio) (im z)) denom)
         (Ddiv (Dsub (Dmul (im z) ratio) (re z)) denom)
  else
    let ratio := Ddiv (im w) (re w) in
    let denom := Dadd (Dmul (im w) ratio) (re w) in
    mkSC (Ddiv (Dadd (Dmul (im z) ratio) (re z)) denom)
         (Ddiv (Dsub (im z) (Dmul (re z) ratio)) denom).

End SignedZero.

(** ** [std::sqrt] in [simulate]: the side of the cut

    The two square roots of [simulate] have the argument
    [1. - (1. - squareIncidentCosTheta) * ratio * ratio].  The operator
    [1. - x] negates the imaginary part of [x]: when that part is [+0.0],
    the argument has the imaginary part [-0.0], and when its real part is
    negative [std::sqrt] returns the root on the negative imaginary axis.
    The sign bit of that imaginary part is computed with the operations of
    [SignedZero], from arguments whose zeros are positive. *)

(** An argument of [simulate]: a zero part is [+0.0]. *)
Definition positive_zeros (z : complex) : SignedZero.scomplex :=
  SignedZero.mkSC (SignedZero.lit (re z)) (SignedZero.lit (im z)).

(** The sign bit of the imaginary part of
    [1. - (1. - squareIncidentCosTheta) * ratio * ratio], with
    [squareIncidentCosTheta = incidentCosTheta * incidentCosTheta] and
    [ratio = nIncident / n]. *)
Definition snell_signbit (incidentCosTheta nIncident n : complex) : bool :=
  let c := positive_zeros incidentCosTheta in
  let squareIncidentCosTheta := SignedZero.Cmul c c in
  let ratio := SignedZero.Cdiv (positive_zeros nIncident) (positive_zeros n) in
  SignedZero.signbit
    (SignedZero.im
       (SignedZero.RsubC (SignedZero.lit 1)
          (SignedZero.Cmul
             (SignedZero.Cmul
                (SignedZero.RsubC (SignedZero.lit 1) squareIncidentCosTheta)
                ratio)
             ratio))).

(** [std::sqrt] of the complex number of value [z] whose imaginary part has
    the sign bit [signbit_im]: the real part is not negative, and the
    imaginary part has the sign of the imaginary part of the argument,
    which is its sign bit when that part is a zero. *)
Definition Csqrt_signed (z : complex) (signbit_im : bool) : complex :=
  let m := Cabs z in
  mkC (sqrt ((m + re z) / 2))
      ((if Rlt_dec (im z) 0 then -1
        else if Rlt_dec 0 (im z) then 1
        else if signbit_im then -1 else 1)
       * sqrt ((m - re z) / 2)).

(** ** [struct Layer] *)

Record Layer : Type := mkLayer {
  thickness : double;          (* same unit as the wavelength *)
  refractiveIndex : complex    (* n - i k, with k negative *)
}.

(** ** [struct Matrix22] *)

Record Matrix22 : Type := mkMatrix22 {
  m11 : complex; m12 : complex;
  m21 : complex; m22 : complex
}.

Definition set_m11 (m : Matrix22) (v : complex) : Matrix22 :=
  mkMatrix22 v (m12 m) (m21 m) (m22 m).
Definition set_m12 (m : Matrix22) (v : complex) : Matrix22 :=
  mkMatrix22 (m11 m) v (m21 m) (m22 m).
Definition set_m21 (m : Matrix22) (v : complex) : Matrix22 :=
  mkMatrix22 (m11 m) (m12 m) v (m22 m).
Definition set_m22 (m : Matrix22) (v : complex) : Matrix22 :=
  mkMatrix22 (m11 m) (m12 m) (m21 m) v.

(** *** [Matrix22::operator*=] on a store of matrices

    [this] and [b] are addresses: [b] is a reference parameter, and nothing
    in the operator prevents it from designating the object being assigned.
    Every statement reads the fields from the store as it is at that
    point. *)

Definition loc := nat.

Definition store := loc -> Matrix22.

Definition upd (s : store) (p : loc) (m : Matrix22) : store :=
  fun q => if Nat.eqb q p then m else s q.

Definition Matrix22_mul_assign_at (this b : loc) (s : store) : store :=
  (* complex x = m11 * b.m11 + m12 * b.m21; *)
  let x := Cadd (Cmul (m11 (s this)) (m11 (s b)))
                (Cmul (m12 (s this)) (m21 (s b))) in
  (* m12 = m11 * b.m12 + m12 * b.m22; *)
  let s := upd s this
             (set_m12 (s this)
                (Cadd (Cmul (m11 (s this)) (m12 (s b)))
                      (Cmul (m12 (s this)) (m22 (s b))))) in
  (* m11 = x; *)
  let s := upd s this (set_m11 (s this) x) in
  (* x = m21 * b.m11 + m22 * b.m21; *)
  let x := Cadd (Cmul (m21 (s this)) (m11 (s b)))
                (Cmul (m22 (s this)) (m21 (s b))) in
  (* m22 = m21 * b.m12 + m22 * b.m22; *)
  let s := upd s this
             (set_m22 (s this)
                (Cadd (Cmul (m21 (s this)) (m12 (s b)))
                      (Cmul (m22 (s this)) (m22 (s b))))) in
  (* m21 = x; *)
  let s := upd s this (set_m21 (s this) x) in
  s.

(** A memory is a store with its allocation pointer: the addresses below
    [next] are in use. *)
Record memory : Type := mkMemory { next : loc; obj : store }.

Definition alloc (m : Matrix22) (mu : memory) : loc * memory :=
  (next mu, mkMemory (S (next mu)) (upd (obj mu) (next mu) m)).

(** *** [const Matrix22 operator*(Matrix22 a, const Matrix22& b)]

    The arguments are the addresses of the two operands.  The parameter [a]
    is passed by value: it is a new object, initialised with a copy of the
    left operand; [b] is the right operand itself.  The result is a copy of
    [a] after [a *= b]. *)
Definition Matrix22_mul_at (pa pb : loc) (mu : memory) : Matrix22 * memory :=
  let '(a, mu) := alloc (obj mu pa) mu in
  let s := Matrix22_mul_assign_at a pb (obj mu) in
  (s a, mkMemory (next mu) s).

(** *** The two operators on values

    [this *= b] when [b] is another object than [this]: the fields of [b]
    keep their values through the six statements. *)
Definition Matrix22_mul_assign (this b : Matrix22) : Matrix22 :=
  let x := Cadd (Cmul (m11 this) (m11 b)) (Cmul (m12 this) (m21 b)) in
  let this := set_m12 this
                (Cadd (Cmul (m11 this) (m12 b)) (Cmul (m12 this) (m22 b))) in
  let this := set_m11 this x in
  let x := Cadd (Cmul (m21 this) (m11 b)) (Cmul (m22 this) (m21 b)) in
  let this := set_m22 this
                (Cadd (Cmul (m21 this) (m12 b)) (Cmul (m22 this) (m22 b))) in
  let this := set_m21 this x in
  this.

(** [a * b]: [return a *= b;] on the copy [a]. *)
Definition Matrix22_mul (a b : Matrix22) : Matrix22 :=
  Matrix22_mul_assign a b.

(** The matrix [( 1 0 ; 0 1 )]. *)
Definition identity : Matrix22 :=
  mkMatrix22 (RtoC 1) (RtoC 0) (RtoC 0) (RtoC 1).

(** The entries of the product as the specification gives them (section 4.2):
    [(AB)_11 = A11 B11 + A12 B21], [(AB)_12 = A11 B12 + A12 B22],
    [(AB)_21 = A21 B11 + A22 B21], [(AB)_22 = A21 B12 + A22 B22]. *)
Definition product_formula (A B : Matrix22) : Matrix22 :=
  mkMatrix22
    (Cadd (Cmul (m11 A) (m11 B)) (Cmul (m12 A) (m21 B)))
    (Cadd (Cmul (m11 A) (m12 B)) (Cmul (m12 A) (m22 B)))
    (Cadd (Cmul (m21 A) (m11 B)) (Cmul (m22 A) (m21 B)))
    (Cadd (Cmul (m21 A) (m12 B)) (Cmul (m22 A) (m22 B))).

(** ** [simulate] *)

(** *** Machine integers: [int] *)

Definition INT_MAX : Z := 2147483647.

(** Conversion of a size to [int]: reduction modulo [2^32] into
    [-2^31 .. 2^31 - 1]. *)
Definition to_int (z : Z) : Z :=
  ((z + 2147483648) mod 4294967296 - 2147483648)%Z.

(** [for (int i = 0; i < n; ++i) body]: the body runs for [i = 0 .. n - 1],
    and not at all when [n <= 0]. *)
Definition for_loop {A : Type} (n : Z) (body : Z -> A -> A) (a : A) : A :=
  fold_left (fun a i => body (Z.of_nat i) a) (seq 0 (Z.to_nat n)) a.

(** [layers[i]] *)
Definition at_index (layers : list Layer) (i : Z) : Layer :=
  nth (Z.to_nat i) layers (mkLayer 0 (RtoC 0)).

(** *** Outputs and the diagnostic channel

    The five output parameters [reflectance], [transmittance], [absorptance],
    [psi] and [delta] are pointers to [double], null by default.  A request
    says which of them are not null; the objects they point to are five
    separate cells. *)

Inductive output : Type :=
  Reflectance | Transmittance | Absorptance | Psi | Delta.

Definition output_eqb (p q : output) : bool :=
  match p, q with
  | Reflectance, Reflectance | Transmittance, Transmittance
  | Absorptance, Absorptance | Psi, Psi | Delta, Delta => true
  | _, _ => false
  end.

Record request : Type := mkRequest {
  reflectance : bool;     (* reflectance != 0 *)
  transmittance : bool;   (* transmittance != 0 *)
  absorptance : bool;     (* absorptance != 0 *)
  psi : bool;             (* psi != 0 *)
  delta : bool            (* delta != 0 *)
}.

(** What a call does to the outside: stores through the output pointers
    and lines printed on [stderr], in the order of execution.  The state of
    a call is the content of the five cells and the events so far; a call
    starts from the content that the cells have before it, with no event. *)
Inductive event : Type :=
  | Store (p : output) (v : double)
  | Stderr (msg : string).

Record state : Type := mkState {
  cell : output -> double;
  events : list event
}.

(** [*p = v] *)
Definition store_to (p : output) (v : double) (st : state) : state :=
  mkState (fun q => if output_eqb q p then v else cell st q)
          (events st ++ [Store p v]).

(** [*p] *)
Definition load (p : output) (st : state) : double := cell st p.

(** [fprintf(stderr, msg)] *)
Definition fprintf_stderr (msg : string) (st : state) : state :=
  mkState (cell st) (events st ++ [Stderr msg]).

(** The text of the warning; the [__FILE__:__LINE__] prefix of the format is
    left out. *)
Definition warning : string :=
  " : warning ! the transmittance is maybe false (incident k != 0)".

(** *** Section 1.2 of the function: the loop over the layers *)

(** The body of the loop for one layer: its two characteristic matrices,
    for the P and for the S polarization. *)
Definition layerMatrices (incidentCosTheta squareIncidentCosTheta : complex)
    (nIncident : complex) (lambda : double) (layer : Layer)
  : Matrix22 * Matrix22 :=
  (* snell law *)
  let ratio := Cdiv nIncident (refractiveIndex layer) in
  let layerCosTheta :=
    Csqrt_signed
      (RsubC 1 (Cmul (Cmul (RsubC 1 squareIncidentCosTheta) ratio) ratio))
      (snell_signbit incidentCosTheta nIncident (refractiveIndex layer)) in
  (* admittance of the layer, P and S *)
  let admittanceLayerP := Cdiv (refractiveIndex layer) layerCosTheta in
  let admittanceLayerS := Cmul (refractiveIndex layer) layerCosTheta in
  (* the delta dephasing of the layer *)
  let deltaLayer :=
    CdivR (Cmul (CmulR (RmulC (-2 * M_PI) (refractiveIndex layer))
                       (thickness layer))
                layerCosTheta)
          lambda in
  let c := Ccos deltaLayer in
  let s := Cmul (Csin deltaLayer) onei in
  (mkMatrix22 c (Cdiv s admittanceLayerP) (Cmul s admittanceLayerP) c,
   mkMatrix22 c (Cdiv s admittanceLayerS) (Cmul s admittanceLayerS) c).

(** The two main matrices after the loop.  [layerMatrixP] and [layerMatrixS]
    are local objects, distinct from the two products they multiply. *)
Definition productMatrices (incidentCosTheta : complex) (lambda : double)
    (nIncident : complex) (layers : list Layer) : Matrix22 * Matrix22 :=
  (* int layersAmount = layers.size(); *)
  let layersAmount := to_int (Z.of_nat (length layers)) in
  let squareIncidentCosTheta := Cmul incidentCosTheta incidentCosTheta in
  for_loop layersAmount
    (fun i '(productMatrixP, productMatrixS) =>
       let '(layerMatrixP, layerMatrixS) :=
         layerMatrices incidentCosTheta squareIncidentCosTheta nIncident
                       lambda (at_index layers i) in
       (Matrix22_mul_assign productMatrixP layerMatrixP,
        Matrix22_mul_assign productMatrixS layerMatrixS))
    (identity, identity).

(** *** The function *)

Definition simulate (incidentCosTheta : complex) (lambda polarization : double)
    (nIncident nExit : complex) (layers : list Layer)
    (out : request) (mem : output -> double) : state :=
  let st := mkState mem [] in
  (* ---------- 1.1 ---------- *)
  let admittanceIncidentP := Cdiv nIncident incidentCosTheta in
  let admittanceIncidentS := Cmul nIncident incidentCosTheta in
  let squareIncidentCosTheta := Cmul incidentCosTheta incidentCosTheta in
  let ratioIncidentExit := Cdiv nIncident nExit in
  let exitCosTheta :=
    Csqrt_signed
      (RsubC 1 (Cmul (Cmul (RsubC 1 squareIncidentCosTheta)
                           ratioIncidentExit)
                     ratioIncidentExit))
      (snell_signbit incidentCosTheta nIncident nExit) in
  let admittanceExitP := Cdiv nExit exitCosTheta in
  let admittanceExitS := Cmul nExit exitCosTheta in
  (* ---------- 1.2 ---------- *)
  let '(productMatrixP, productMatrixS) :=
    productMatrices incidentCosTheta lambda nIncident layers in
  (* ----------  2  ---------- *)
  let bP := Cadd (m11 productMatrixP) (Cmul (m12 productMatrixP) admittanceExitP) in
  let cP := Cadd (m21 productMatrixP) (Cmul (m22 productMatrixP) admittanceExitP) in
  let bS := Cadd (m11 productMatrixS) (Cmul (m12 productMatrixS) admittanceExitS) in
  let cS := Cadd (m21 productMatrixS) (Cmul (m22 productMatrixS) admittanceExitS) in
  let reflectionCoefficientP :=
    Cdiv (Csub bP (Cdiv cP admittanceIncidentP))
         (Cadd bP (Cdiv cP admittanceIncidentP)) in
  let reflectionCoefficientS :=
    Cdiv (Csub bS (Cdiv cS admittanceIncidentS))
         (Cadd bS (Cdiv cS admittanceIncidentS)) in
  let st :=
    if reflectance out then
      let reflectanceP := Cnorm reflectionCoefficientP in
      let reflectanceS := Cnorm reflectionCoefficientS in
      let polP := cos polarization in
      let polS := sin polarization in
      let polP := polP * polP in
      let polS := polS * polS in
      let st := store_to Reflectance
                  (polP * reflectanceP + polS * reflectanceS) st in
      if transmittance out then
        let st :=
          (* if (imag(nIncident) != 0.0) *)
          if Req_dec_T (im nIncident) 0 then st
          else fprintf_stderr warning st in
        let transmitionCoefficientP :=
          Cdiv (Cmul (RdivC 2 (Cadd bP (Cdiv cP admittanceIncidentP)))
                     incidentCosTheta)
               exitCosTheta in
        let transmitionCoefficientS :=
          RdivC 2 (Cadd bS (Cdiv cS admittanceIncidentS)) in
        let transmittanceP := Cnorm transmitionCoefficientP in
        let transmittanceS := Cnorm transmitionCoefficientS in
        let st := store_to Transmittance
                    (polP * transmittanceP + polS * transmittanceS) st in
        if absorptance out then
          store_to Absorptance
            (1 - load Reflectance st - load Transmittance st) st
        else st
      else st
    else st in
  if (psi out && delta out)%bool then
    let st := store_to Psi
                (atan2 (Cabs reflectionCoefficientP)
                       (Cabs reflectionCoefficientS)) st in
    store_to Delta
      (Carg reflectionCoefficientP - Carg reflectionCoefficientS) st
  else st.

(** ** The formulas of the specification

    The quantities of section 4.4 of the specification, written as the
    specification writes them; the theorems compare them with what the code
    computes. *)

(** [Yp = n / cos], [Ys = n cos] *)
Definition spec_admittanceP (n cosTheta : complex) : complex := Cdiv n cosTheta.
Definition spec_admittanceS (n cosTheta : complex) : complex := Cmul n cosTheta.

Definition Csquare (z : complex) : complex := Cmul z z.

(** Snell's law: [cos = sqrt (1 - (1 - cos_inc^2) (n_inc / n)^2)], the
    principal square root. *)
Definition spec_cosine (cos_inc n_inc n : complex) : complex :=
  Csqrt (RsubC 1 (Cmul (RsubC 1 (Csquare cos_inc)) (Csquare (Cdiv n_inc n)))).

(** The cosine in the exit medium as the function takes it: the square root
    of the same number that [std::sqrt] returns, below the cut when the
    imaginary part of its argument is [-0.0]. *)
Definition exit_cosine (cos_inc n_inc n_exit : complex) : complex :=
  Csqrt_signed
    (RsubC 1 (Cmul (RsubC 1 (Csquare cos_inc)) (Csquare (Cdiv n_inc n_exit))))
    (snell_signbit cos_inc n_inc n_exit).

(** [delta = - 2 PI n thickness cos / lambda] *)
Definition spec_phase (n : complex) (d : double) (cosTheta : complex)
    (lambda : double) : complex :=
  CdivR (Cmul (CmulR (RmulC (- (2 * PI)) n) d) cosTheta) lambda.

(** [m11 = m22 = cos delta], [m12 = i sin delta / Y], [m21 = i sin delta Y] *)
Definition spec_layer_matrix (Y dlt : complex) : Matrix22 :=
  mkMatrix22 (Ccos dlt) (Cdiv (Cmul onei (Csin dlt)) Y)
             (Cmul (Cmul onei (Csin dlt)) Y) (Ccos dlt).

Definition spec_layerP (cos_inc : complex) (lambda : double) (n_inc : complex)
    (layer : Layer) : Matrix22 :=
  let n := refractiveIndex layer in
  let c := spec_cosine cos_inc n_inc n in
  spec_layer_matrix (spec_admittanceP n c)
                    (spec_phase n (thickness layer) c lambda).

Definition spec_layerS (cos_inc : complex) (lambda : double) (n_inc : complex)
    (layer : Layer) : Matrix22 :=
  let n := refractiveIndex layer in
  let c := spec_cosine cos_inc n_inc n in
  spec_layer_matrix (spec_admittanceS n c)
                    (spec_phase n (thickness layer) c lambda).

(** The identity right-multiplied by the matrix of each layer, from the
    incident side to the exit side. *)
Definition spec_stack (matrix_of : Layer -> Matrix22) (layers : list Layer)
  : Matrix22 :=
  fold_left (fun M layer => product_formula M (matrix_of layer)) layers identity.

(** [B = M.m11 + M.m12 Y_exit], [C = M.m21 + M.m22 Y_exit] *)
Definition spec_B (M : Matrix22) (Y_exit : complex) : complex :=
  Cadd (m11 M) (Cmul (m12 M) Y_exit).
Definition spec_C (M : Matrix22) (Y_exit : complex) : complex :=
  Cadd (m21 M) (Cmul (m22 M) Y_exit).

(** [r = (B - C / Y_inc) / (B + C / Y_inc)] *)
Definition spec_r (B C Y_inc : complex) : complex :=
  Cdiv (Csub B (Cdiv C Y_inc)) (Cadd B (Cdiv C Y_inc)).

(** [t = 2 / (B + C / Y_inc)] *)
Definition spec_t (B C Y_inc : complex) : complex :=
  RdivC 2 (Cadd B (Cdiv C Y_inc)).

(** [cos^2 (polarization) |x_P|^2 + sin^2 (polarization) |x_S|^2] *)
Definition spec_blend (polarization : double) (xP xS : complex) : double :=
  (cos polarization)² * (Cabs xP)² + (sin polarization)² * (Cabs xS)².

(** The two reflection coefficients of a stack, from the product matrices
    [MP] and [MS] of the two polarization bases, with the exit cosine of the
    function. *)
Definition spec_rP (cos_inc n_inc n_exit : complex) (MP : Matrix22) : complex :=
  let Y_inc := spec_admittanceP n_inc cos_inc in
  let Y_exit := spec_admittanceP n_exit (exit_cosine cos_inc n_inc n_exit) in
  spec_r (spec_B MP Y_exit) (spec_C MP Y_exit) Y_inc.

Definition spec_rS (cos_inc n_inc n_exit : complex) (MS : Matrix22) : complex :=
  let Y_inc := spec_admittanceS n_inc cos_inc in
  let Y_exit := spec_admittanceS n_exit (exit_cosine cos_inc n_inc n_exit) in
  spec_r (spec_B MS Y_exit) (spec_C MS Y_exit) Y_inc.

(** The two transmission coefficients; the P one is scaled by
    [cos_inc / cos_exit]. *)
Definition spec_tP (cos_inc n_inc n_exit : complex) (MP : Matrix22) : complex :=
  let Y_inc := spec_admittanceP n_inc cos_inc in
  let cos_exit := exit_cosine cos_inc n_inc n_exit in
  let Y_exit := spec_admittanceP n_exit cos_exit in
  Cmul (spec_t (spec_B MP Y_exit) (spec_C MP Y_exit) Y_inc)
       (Cdiv cos_inc cos_exit).

Definition spec_tS (cos_inc n_inc n_exit : complex) (MS : Matrix22) : complex :=
  let Y_inc := spec_admittanceS n_inc cos_inc in
  let Y_exit := spec_admittanceS n_exit (exit_cosine cos_inc n_inc n_exit) in
  spec_t (spec_B MS Y_exit) (spec_C MS Y_exit) Y_inc.

(** The two reflection coefficients as the specification words them: the
    exit cosine is the principal square root. *)
Definition principal_rP (cos_inc n_inc n_exit : complex) (MP : Matrix22)
  : complex :=
  let Y_inc := spec_admittanceP n_inc cos_inc in
  let Y_exit := spec_admittanceP n_exit (spec_cosine cos_inc n_inc n_exit) in
  spec_r (spec_B MP Y_exit) (spec_C MP Y_exit) Y_inc.

Definition principal_rS (cos_inc n_inc n_exit : complex) (MS : Matrix22)
  : complex :=
  let Y_inc := spec_admittanceS n_inc cos_inc in
  let Y_exit := spec_admittanceS n_exit (spec_cosine cos_inc n_inc n_exit) in
  spec_r (spec_B MS Y_exit) (spec_C MS Y_exit) Y_inc.

(** Steps 5 to 8 of the algorithm, on the product matrices [MP] and [MS]
    that the loop leaves: what is stored and printed for a request. *)
Definition spec_simulate (cos_inc : complex) (polarization : double)
    (n_inc n_exit : complex) (MP MS : Matrix22)
    (out : request) (mem : output -> double) : state :=
  let st := mkState mem [] in
  let rP := spec_rP cos_inc n_inc n_exit MP in
  let rS := spec_rS cos_inc n_inc n_exit MS in
  let st :=
    if reflectance out then
      let st := store_to Reflectance (spec_blend polarization rP rS) st in
      if transmittance out then
        let st := if Req_dec_T (im n_inc) 0 then st
                  else fprintf_stderr warning st in
        let st := store_to Transmittance
                    (spec_blend polarization
                       (spec_tP cos_inc n_inc n_exit MP)
                       (spec_tS cos_inc n_inc n_exit MS)) st in
        if absorptance out then
          store_to Absorptance
            (1 - load Reflectance st - load Transmittance st) st
        else st
      else st
    else st in
  if (psi out && delta out)%bool then
    let st := store_to Psi (atan2 (Cabs rP) (Cabs rS)) st in
    store_to Delta (Carg rP - Carg rS) st
  else st.

(** An output is enabled by a request when its pointer is not null and the
    outputs it depends on are requested too. *)
Definition enabled (out : request) (p : output) : bool :=
  match p with
  | Reflectance => reflectance out
  | Transmittance => reflectance out && transmittance out
  | Absorptance => reflectance out && transmittance out && absorptance out
  | Psi | Delta => psi out && delta out
  end%bool.

(** The outputs that the events of a call store to, and what it prints. *)
Definition stored_outputs (evs : list event) : list output :=
  flat_map (fun e => match e with Store p _ => [p] | Stderr _ => [] end) evs.

Definition printed (evs : list event) : list string :=
  flat_map (fun e => match e with Store _ _ => [] | Stderr m => [m] end) evs.

(** A layer has a real refractive index when its extinction coefficient is
    zero. *)
Definition lossless (layers : list Layer) : Prop :=
  Forall (fun layer => im (refractiveIndex layer) = 0) layers.

(** ** Particular inputs *)

(** A matrix whose in-place square [A *= A] is not its square. *)
Definition skew : Matrix22 :=
  mkMatrix22 (RtoC 2) (RtoC 0) (RtoC 1) (RtoC 0).

Definition minus_identity : Matrix22 :=
  mkMatrix22 (RtoC (-1)) (RtoC 0) (RtoC 0) (RtoC (-1)).

(** A half-wave layer at normal incidence for the wavelength 2: [n = 1],
    thickness 1. *)
Definition halfwave : Layer := mkLayer 1 (RtoC 1).

(** A stack of [2^31 + 1] layers: its size does not fit in an [int]. *)
Definition long_stack_size : nat := Z.to_nat 2147483649.

Definition long_stack : list Layer := repeat halfwave long_stack_size.

(** A request for the five outputs, and cells that hold zero. *)
Definition all_outputs : request := mkRequest true true true true true.

(** A request for the reflectance alone. *)
Definition only_reflectance : request := mkRequest true false false false false.

(** An absorbing layer, [Layer{4, complex(1.3125, 0.34375)}]: at the
    wavelength 11, for light that comes at the cosine [0.6] from a medium of
    index [1.5625], its phase thickness is [- PI / 2 - (21 PI / 44) i]. *)
Definition absorbing_layer : Layer := mkLayer 4 (mkC (21 / 16) (11 / 32)).

Definition zeroed : output -> double := fun _ => 0.

(** ** Quantities of a stack *)

(** The number of times the body of the loop runs: [layersAmount] when it
    is positive, and zero otherwise. *)
Definition loop_count (layers : list Layer) : nat :=
  Z.to_nat (to_int (Z.of_nat (length layers))).

(** The determinant [m11 m22 - m12 m21]. *)
Definition det (M : Matrix22) : complex :=
  Csub (Cmul (m11 M) (m22 M)) (Cmul (m12 M) (m21 M)).

(** The two admittances that the loop divides and multiplies by for a
    layer.  A layer is regular when none of them is zero. *)
Definition regular (cos_inc n_inc : complex) (layer : Layer) : Prop :=
  let n := refractiveIndex layer in
  let c := spec_cosine cos_inc n_inc n in
  Cnorm (spec_admittanceP n c) <> 0 /\ Cnorm (spec_admittanceS n c) <> 0.

(** The same layer measured in another unit of length. *)
Definition scale_layer (k : double) (layer : Layer) : Layer :=
  mkLayer (k * thickness layer) (refractiveIndex layer).

(** * Properties *)

(** ** Complex arithmetic *)

Lemma complex_eq (z w : complex) : re z = re w -> im z = im w -> z = w.
Proof. destruct z, w; simpl; intros -> ->; reflexivity. Qed.

Ltac complex_ring :=
  apply complex_eq; simpl; unfold Rdiv; ring.

Lemma Cmul_comm (z w : complex) : Cmul z w = Cmul w z.
Proof. complex_ring. Qed.

Lemma Cmul_assoc (z w u : complex) : Cmul (Cmul z w) u = Cmul z (Cmul w u).
Proof. complex_ring. Qed.

Lemma Cmul_1_r (z : complex) : Cmul z (RtoC 1) = z.
Proof. complex_ring. Qed.

Lemma Cmul_div_assoc (z w u : complex) :
  Cdiv (Cmul z w) u = Cmul z (Cdiv w u).
Proof. complex_ring. Qed.

Lemma Cdiv_neg_neg (u v : complex) : Cdiv (Cneg u) (Cneg v) = Cdiv u v.
Proof.
  destruct u as [a b], v as [c d].
  apply complex_eq; cbn [re im Cdiv Cneg];
    replace (- c * - c + - d * - d) with (c * c + d * d) by ring;
    unfold Rdiv; ring.
Qed.

Lemma Cdiv_neg_r (u v : complex) : Cdiv u (Cneg v) = Cneg (Cdiv u v).
Proof.
  destruct u as [a b], v as [c d].
  apply complex_eq; cbn [re im Cdiv Cneg];
    replace (- c * - c + - d * - d) with (c * c + d * d) by ring;
    unfold Rdiv; ring.
Qed.

(** [std::norm] is the square of [std::abs]. *)
Lemma Cabs_sqr (z : complex) : (Cabs z)² = Cnorm z.
Proof.
  unfold Cabs. apply Rsqr_sqrt. unfold Cnorm.
  pose proof (Rle_0_sqr (re z)); pose proof (Rle_0_sqr (im z)).
  unfold Rsqr in *; lra.
Qed.

(** ** Matrices *)

Lemma matrix_eq (A B : Matrix22) :
  m11 A = m11 B -> m12 A = m12 B -> m21 A = m21 B -> m22 A = m22 B -> A = B.
Proof. destruct A, B; simpl; intros -> -> -> ->; reflexivity. Qed.

(** The six statements of [operator*=], run on an object other than [b],
    leave the entries of the product in [this]. *)
Lemma Matrix22_mul_assign_formula (A B : Matrix22) :
  Matrix22_mul_assign A B = product_formula A B.
Proof. reflexivity. Qed.

Lemma upd_same (s : store) (p : loc) (m : Matrix22) : upd s p m p = m.
Proof. unfold upd. now rewrite Nat.eqb_refl. Qed.

Lemma upd_other (s : store) (p q : loc) (m : Matrix22) :
  q <> p -> upd s p m q = s q.
Proof. unfold upd. intros H. apply Nat.eqb_neq in H. now rewrite H. Qed.

(** On the store, with [b] another object than [this], the operator agrees
    with the operator on values and writes to [this] only. *)
Lemma Matrix22_mul_assign_at_distinct (this b : loc) (s : store) :
  this <> b ->
  Matrix22_mul_assign_at this b s this = Matrix22_mul_assign (s this) (s b)
  /\ forall q, q <> this -> Matrix22_mul_assign_at this b s q = s q.
Proof.
  intros Hne. assert (Hb : b <> this) by congruence.
  unfold Matrix22_mul_assign_at. split.
  - rewrite !upd_same, !(upd_other _ this b) by exact Hb. reflexivity.
  - intros q Hq. now rewrite !upd_other by exact Hq.
Qed.

Lemma product_formula_assoc (A B C : Matrix22) :
  product_formula (product_formula A B) C
  = product_formula A (product_formula B C).
Proof. apply matrix_eq; simpl; complex_ring. Qed.

Lemma product_formula_identity_l (A : Matrix22) :
  product_formula identity A = A.
Proof. apply matrix_eq; simpl; complex_ring. Qed.

Lemma product_formula_identity_r (A : Matrix22) :
  product_formula A identity = A.
Proof. apply matrix_eq; simpl; complex_ring. Qed.

(** C6.  The product [A * B] of two matrices has the entries
    [A11 B11 + A12 B21], [A11 B12 + A12 B22], [A21 B11 + A22 B21] and
    [A21 B12 + A22 B22]; the product is associative, and the identity matrix
    is neutral on both sides. *)
Theorem Matrix22_mul_monoid :
  (forall A B,
      m11 (Matrix22_mul A B) = Cadd (Cmul (m11 A) (m11 B)) (Cmul (m12 A) (m21 B))
      /\ m12 (Matrix22_mul A B) = Cadd (Cmul (m11 A) (m12 B)) (Cmul (m12 A) (m22 B))
      /\ m21 (Matrix22_mul A B) = Cadd (Cmul (m21 A) (m11 B)) (Cmul (m22 A) (m21 B))
      /\ m22 (Matrix22_mul A B) = Cadd (Cmul (m21 A) (m12 B)) (Cmul (m22 A) (m22 B)))
  /\ (forall A B C,
         Matrix22_mul (Matrix22_mul A B) C = Matrix22_mul A (Matrix22_mul B C))
  /\ (forall A,
         Matrix22_mul identity A = A /\ Matrix22_mul A identity = A).
Proof.
  unfold Matrix22_mul. split; [| split].
  - intros A B. rewrite Matrix22_mul_assign_formula. simpl. tauto.
  - intros A B C. rewrite !Matrix22_mul_assign_formula.
    apply product_formula_assoc.
  - intros A. rewrite !Matrix22_mul_assign_formula. split.
    + apply product_formula_identity_l.
    + apply product_formula_identity_r.
Qed.

(** The value-returning operator on two operands in memory, the same object
    or not: its result is the product of their values, and no operand is
    modified. *)
Lemma Matrix22_mul_at_value (pa pb : loc) (mu : memory) :
  (pa < next mu)%nat -> (pb < next mu)%nat ->
  fst (Matrix22_mul_at pa pb mu) = product_formula (obj mu pa) (obj mu pb)
  /\ forall q, (q < next mu)%nat -> obj (snd (Matrix22_mul_at pa pb mu)) q = obj mu q.
Proof.
  intros Ha Hb. unfold Matrix22_mul_at, alloc. simpl.
  destruct (Matrix22_mul_assign_at_distinct (next mu) pb
              (upd (obj mu) (next mu) (obj mu pa))) as [Hv Hframe].
  - lia.
  - split.
    + rewrite Hv, upd_same, upd_other by lia.
      apply Matrix22_mul_assign_formula.
    + intros q Hq. rewrite Hframe by lia. apply upd_other. lia.
Qed.

Lemma Matrix22_mul_assign_at_aliased :
  Matrix22_mul_assign_at 0%nat 0%nat (fun _ => skew) 0%nat
  <> product_formula skew skew.
Proof.
  intros H. apply (f_equal (fun M => re (m21 M))) in H.
  unfold Matrix22_mul_assign_at, upd in H. simpl in H. lra.
Qed.

(** C10.  [A * A] is the square of [A]: the left operand is copied into the
    parameter [a], a new object, so the assignments of [a *= b] never
    change what [b] designates, and [A] itself is left as it was.  Run in
    place with both operands the same object, [operator*=] does not compute
    the square. *)
Theorem Matrix22_mul_at_square :
  (forall (mu : memory) (p : loc),
      (p < next mu)%nat ->
      fst (Matrix22_mul_at p p mu) = product_formula (obj mu p) (obj mu p)
      /\ obj (snd (Matrix22_mul_at p p mu)) p = obj mu p)
  /\ (exists (s : store) (p : loc),
         Matrix22_mul_assign_at p p s p <> product_formula (s p) (s p)).
Proof.
  split.
  - intros mu p Hp.
    destruct (Matrix22_mul_at_value p p mu Hp Hp) as [Hv Hframe].
    split; [exact Hv | apply Hframe; exact Hp].
  - exists (fun _ => skew), 0%nat. exact Matrix22_mul_assign_at_aliased.
Qed.

Lemma Matrix22_mul_at_square_witness :
  (0 < 1)%nat
  /\ fst (Matrix22_mul_at 0%nat 0%nat (mkMemory 1%nat (fun _ => skew)))
     = product_formula skew skew.
Proof.
  split.
  - apply Nat.lt_0_1.
  - apply (proj1 Matrix22_mul_at_square (mkMemory 1%nat (fun _ => skew)) 0%nat).
    simpl. apply Nat.lt_0_1.
Defined.

(** ** The loop over the layers *)

(** A size that fits in an [int] is converted to itself. *)
Lemma to_int_small (z : Z) : (0 <= z <= INT_MAX)%Z -> to_int z = z.
Proof.
  unfold to_int, INT_MAX. intros H. rewrite Z.mod_small; lia.
Qed.

Lemma fold_left_pointwise {A B : Type} (f g : A -> B -> A) (l : list B) (a : A) :
  (forall b x, f b x = g b x) -> fold_left f l a = fold_left g l a.
Proof.
  intros H. revert a. induction l as [| x l IH]; intros a; simpl.
  - reflexivity.
  - now rewrite H, IH.
Qed.

(** A counted loop that reads [l[i]] at step [i] is a traversal of [l]. *)
Lemma fold_seq_nth {A B : Type} (f : B -> A -> A) (d : B) (l pre : list B) (a : A) :
  fold_left (fun a i => f (nth i (pre ++ l) d) a)
            (seq (length pre) (length l)) a
  = fold_left (fun a x => f x a) l a.
Proof.
  revert pre a. induction l as [| x l IH]; intros pre a; simpl.
  - reflexivity.
  - rewrite app_nth2, Nat.sub_diag by apply Nat.le_refl. simpl.
    specialize (IH (pre ++ [x]) (f x a)).
    rewrite <- app_assoc, length_app, Nat.add_1_r in IH. exact IH.
Qed.

Lemma for_loop_at_index {A : Type} (f : Layer -> A -> A) (layers : list Layer) (a : A) :
  for_loop (Z.of_nat (length layers)) (fun i => f (at_index layers i)) a
  = fold_left (fun a layer => f layer a) layers a.
Proof.
  unfold for_loop, at_index. rewrite Nat2Z.id.
  rewrite <- (fold_seq_nth f (mkLayer 0 (RtoC 0)) layers [] a). simpl.
  apply fold_left_pointwise. intros b i. now rewrite Nat2Z.id.
Qed.

(** ** The square root of [simulate] and the principal square root *)

(** On an argument whose imaginary part is not [-0.0], [std::sqrt] is the
    principal square root. *)
Lemma Csqrt_signed_positive_zero (z : complex) : Csqrt_signed z false = Csqrt z.
Proof.
  unfold Csqrt_signed, Csqrt. f_equal.
  destruct (Rlt_dec (im z) 0), (Rlt_dec 0 (im z)), (Rle_dec 0 (im z));
    try reflexivity; lra.
Qed.

Lemma Cabs_real (z : complex) : im z = 0 -> Cabs z = Rabs (re z).
Proof.
  intros Him. unfold Cabs, Cnorm. rewrite Him.
  replace (re z * re z + 0 * 0) with (re z)² by (unfold Rsqr; ring).
  apply sqrt_Rsqr_abs.
Qed.

(** Away from the negative real axis the sign of a zero does not count. *)
Lemma Csqrt_signed_off_cut (z : complex) (b : bool) :
  0 <= re z \/ im z <> 0 -> Csqrt_signed z b = Csqrt z.
Proof.
  intros Hz. destruct b; [| apply Csqrt_signed_positive_zero].
  unfold Csqrt_signed, Csqrt.
  destruct (Rlt_dec (im z) 0) as [Hlt | Hge].
  - destruct (Rle_dec 0 (im z)); [lra | reflexivity].
  - destruct (Rlt_dec 0 (im z)) as [Hgt | Hle].
    + destruct (Rle_dec 0 (im z)); [reflexivity | lra].
    + assert (Him : im z = 0) by lra.
      assert (Hre : 0 <= re z) by (destruct Hz; [assumption | contradiction]).
      rewrite (Cabs_real z Him), Rabs_pos_eq by exact Hre.
      replace ((re z - re z) / 2) with 0 by field. rewrite sqrt_0.
      destruct (Rle_dec 0 (im z)); apply complex_eq; cbn [re im]; ring.
Qed.

(** On the negative real axis, the negative zero selects the opposite of the
    principal square root. *)
Lemma Csqrt_signed_below_cut (z : complex) :
  re z < 0 -> im z = 0 -> Csqrt_signed z true = Cneg (Csqrt z).
Proof.
  intros Hre Him. unfold Csqrt_signed, Csqrt.
  rewrite (Cabs_real z Him), Rabs_left by exact Hre.
  replace ((- re z + re z) / 2) with 0 by field. rewrite sqrt_0.
  destruct (Rlt_dec (im z) 0); [lra |].
  destruct (Rlt_dec 0 (im z)); [lra |].
  destruct (Rle_dec 0 (im z)); [| lra].
  apply complex_eq; cbn [re im Cneg]; ring.
Qed.

(** What [std::sqrt] returns is the principal square root or its opposite. *)
Lemma Csqrt_signed_cases (z : complex) (b : bool) :
  Csqrt_signed z b = Csqrt z \/ Csqrt_signed z b = Cneg (Csqrt z).
Proof.
  destruct b; [| left; apply Csqrt_signed_positive_zero].
  destruct (Rle_dec 0 (re z)) as [Hre | Hre].
  - left. apply Csqrt_signed_off_cut. now left.
  - destruct (Req_dec_T (im z) 0) as [Him | Him].
    + right. apply Csqrt_signed_below_cut; [lra | exact Him].
    + left. apply Csqrt_signed_off_cut. now right.
Qed.

Lemma cosh2_sinh2 (b : R) : cosh b * cosh b - sinh b * sinh b = 1.
Proof.
  unfold cosh, sinh.
  assert (H : exp b * exp (- b) = 1)
    by (rewrite <- exp_plus, Rplus_opp_r; apply exp_0).
  replace ((exp b + exp (- b)) / 2 * ((exp b + exp (- b)) / 2)
           - (exp b - exp (- b)) / 2 * ((exp b - exp (- b)) / 2))
    with (exp b * exp (- b)) by field.
  exact H.
Qed.

Lemma cosh_opp (x : R) : cosh (- x) = cosh x.
Proof. unfold cosh. rewrite Ropp_involutive. field. Qed.

Lemma sinh_opp (x : R) : sinh (- x) = - sinh x.
Proof. unfold sinh. rewrite Ropp_involutive. field. Qed.

Lemma Ccos_neg (z : complex) : Ccos (Cneg z) = Ccos z.
Proof.
  unfold Ccos. cbn [re im Cneg].
  rewrite cos_neg, sin_neg, cosh_opp, sinh_opp.
  apply complex_eq; cbn [re im]; ring.
Qed.

Lemma Csin_neg (z : complex) : Csin (Cneg z) = Cneg (Csin z).
Proof.
  unfold Csin, Cneg. cbn [re im].
  rewrite cos_neg, sin_neg, cosh_opp, sinh_opp.
  apply complex_eq; cbn [re im]; ring.
Qed.

(** The matrix of a layer is the same for the two square roots of its
    cosine: the phase and the admittance change sign together. *)
Lemma layer_matrix_even_P (n c : complex) (d lambda : double) :
  spec_layer_matrix (spec_admittanceP n (Cneg c)) (spec_phase n d (Cneg c) lambda)
  = spec_layer_matrix (spec_admittanceP n c) (spec_phase n d c lambda).
Proof.
  replace (spec_phase n d (Cneg c) lambda) with (Cneg (spec_phase n d c lambda))
    by (unfold spec_phase; complex_ring).
  unfold spec_layer_matrix, spec_admittanceP.
  rewrite Ccos_neg, Csin_neg, Cdiv_neg_r.
  replace (Cmul onei (Cneg (Csin (spec_phase n d c lambda))))
    with (Cneg (Cmul onei (Csin (spec_phase n d c lambda)))) by complex_ring.
  rewrite Cdiv_neg_neg. f_equal. complex_ring.
Qed.

Lemma layer_matrix_even_S (n c : complex) (d lambda : double) :
  spec_layer_matrix (spec_admittanceS n (Cneg c)) (spec_phase n d (Cneg c) lambda)
  = spec_layer_matrix (spec_admittanceS n c) (spec_phase n d c lambda).
Proof.
  replace (spec_phase n d (Cneg c) lambda) with (Cneg (spec_phase n d c lambda))
    by (unfold spec_phase; complex_ring).
  unfold spec_layer_matrix, spec_admittanceS.
  rewrite Ccos_neg, Csin_neg.
  replace (Cmul n (Cneg c)) with (Cneg (Cmul n c)) by complex_ring.
  replace (Cmul onei (Cneg (Csin (spec_phase n d c lambda))))
    with (Cneg (Cmul onei (Csin (spec_phase n d c lambda)))) by complex_ring.
  rewrite Cdiv_neg_neg. f_equal. complex_ring.
Qed.

(** The grouping of the products in the code and in the formula. *)
Lemma snell_eq (c n_inc n : complex) :
  RsubC 1 (Cmul (Cmul (RsubC 1 (Cmul c c)) (Cdiv n_inc n)) (Cdiv n_inc n))
  = RsubC 1 (Cmul (RsubC 1 (Csquare c)) (Csquare (Cdiv n_inc n))).
Proof.
  unfold Csquare. now rewrite Cmul_assoc.
Qed.

(** The matrices that the body of the loop builds for a layer are the
    matrices of the specification, on whichever side of the cut the cosine
    of the layer is taken. *)
Lemma layerMatrices_spec (c : complex) (lambda : double) (n_inc : complex)
    (layer : Layer) :
  layerMatrices c (Cmul c c) n_inc lambda layer
  = (spec_layerP c lambda n_inc layer, spec_layerS c lambda n_inc layer).
Proof.
  unfold layerMatrices. rewrite snell_eq.
  replace (-2 * M_PI) with (- (2 * PI)) by (unfold M_PI; ring).
  rewrite (Cmul_comm (Csin _) onei).
  fold (Csquare c).
  destruct (Csqrt_signed_cases
              (RsubC 1 (Cmul (RsubC 1 (Csquare c))
                             (Csquare (Cdiv n_inc (refractiveIndex layer)))))
              (snell_signbit c n_inc (refractiveIndex layer))) as [-> | ->];
    fold (spec_cosine c n_inc (refractiveIndex layer)).
  - reflexivity.
  - pose proof (layer_matrix_even_P (refractiveIndex layer)
                  (spec_cosine c n_inc (refractiveIndex layer))
                  (thickness layer) lambda) as HP.
    pose proof (layer_matrix_even_S (refractiveIndex layer)
                  (spec_cosine c n_inc (refractiveIndex layer))
                  (thickness layer) lambda) as HS.
    unfold spec_layerP, spec_layerS. cbv zeta.
    rewrite <- HP, <- HS. reflexivity.
Qed.

Lemma fold_pair_stack (fP fS : Layer -> Matrix22) (layers : list Layer)
    (MP MS : Matrix22) :
  fold_left (fun '(prodP, prodS) layer =>
               (product_formula prodP (fP layer),
                product_formula prodS (fS layer)))
            layers (MP, MS)
  = (fold_left (fun M layer => product_formula M (fP layer)) layers MP,
     fold_left (fun M layer => product_formula M (fS layer)) layers MS).
Proof.
  revert MP MS. induction layers as [| x l IH]; intros MP MS; simpl.
  - reflexivity.
  - apply IH.
Qed.

(** The loop on a stack whose size fits in an [int].  It visits the layers
    from the incident side to the exit side; for each layer it takes the
    cosine from Snell's law with [n_inc / n_layer], the phase thickness
    [- 2 PI n thickness cos / lambda], builds the matrix with
    [m11 = m22 = cos delta], [m12 = i sin delta / Y], [m21 = i sin delta Y]
    for the P admittance [n / cos] and for the S admittance [n cos], and
    multiplies each of the two products, which start at the identity, by
    that matrix on the right. *)
Lemma productMatrices_spec (incidentCosTheta : complex) (lambda : double)
    (nIncident : complex) (layers : list Layer) :
  (Z.of_nat (length layers) <= INT_MAX)%Z ->
  productMatrices incidentCosTheta lambda nIncident layers
  = (spec_stack (spec_layerP incidentCosTheta lambda nIncident) layers,
     spec_stack (spec_layerS incidentCosTheta lambda nIncident) layers).
Proof.
  intros Hsize. unfold productMatrices, spec_stack.
  rewrite to_int_small by lia.
  rewrite (for_loop_at_index
             (fun layer '(prodP, prodS) =>
                let '(layerP, layerS) :=
                  layerMatrices incidentCosTheta
                                (Cmul incidentCosTheta incidentCosTheta)
                                nIncident lambda layer in
                (Matrix22_mul_assign prodP layerP,
                 Matrix22_mul_assign prodS layerS))).
  rewrite <- fold_pair_stack.
  apply fold_left_pointwise. intros [prodP prodS] layer.
  now rewrite layerMatrices_spec, !Matrix22_mul_assign_formula.
Qed.

(** Two layers: the matrix of the first one is on the left. *)
Lemma productMatrices_two_layers (incidentCosTheta : complex) (lambda : double)
    (nIncident : complex) (first second : Layer) :
  fst (productMatrices incidentCosTheta lambda nIncident [first; second])
  = product_formula (spec_layerP incidentCosTheta lambda nIncident first)
                    (spec_layerP incidentCosTheta lambda nIncident second).
Proof.
  rewrite productMatrices_spec by (cbn [length]; unfold INT_MAX; lia).
  cbn [fst]. unfold spec_stack. cbn [fold_left].
  now rewrite product_formula_identity_l.
Qed.

(** *** A stack too long for the [int] counter

    [long_stack] is [2^31 + 1] copies of a half-wave layer.  The matrix of
    such a layer is minus the identity, and so is the product of an odd
    number of them; but [layersAmount] is negative, the loop does not run
    and the product stays the identity. *)

Lemma Csqrt_one (z : complex) : re z = 1 -> im z = 0 -> Csqrt z = RtoC 1.
Proof.
  intros Hre Him. unfold Csqrt, Cabs, Cnorm. rewrite Hre, Him.
  replace (1 * 1 + 0 * 0) with 1 by ring. rewrite sqrt_1.
  replace ((1 + 1) / 2) with 1 by field.
  replace ((1 - 1) / 2) with 0 by field.
  rewrite sqrt_1, sqrt_0.
  apply complex_eq; simpl; [reflexivity | ring].
Qed.

Lemma Cdiv_one (z : complex) : Cdiv z (RtoC 1) = z.
Proof. apply complex_eq; simpl; field. Qed.

Lemma spec_cosine_normal (n_inc n : complex) :
  spec_cosine (RtoC 1) n_inc n = RtoC 1.
Proof.
  unfold spec_cosine, Csquare. apply Csqrt_one; simpl; ring.
Qed.

(** At normal incidence the argument of the square root is 1, away from
    the cut. *)
Lemma exit_cosine_normal (n_inc n : complex) :
  exit_cosine (RtoC 1) n_inc n = RtoC 1.
Proof.
  unfold exit_cosine. rewrite Csqrt_signed_off_cut.
  - apply spec_cosine_normal.
  - left. unfold Csquare. simpl. lra.
Qed.

Lemma halfwave_matrices :
  spec_layerP (RtoC 1) 2 (RtoC 1) halfwave = minus_identity.
Proof.
  unfold spec_layerP, spec_layer_matrix, spec_admittanceP, spec_phase, halfwave.
  simpl refractiveIndex. simpl thickness.
  rewrite spec_cosine_normal, Cdiv_one.
  replace (CdivR (Cmul (CmulR (RmulC (- (2 * PI)) (RtoC 1)) 1) (RtoC 1)) 2)
    with (RtoC (- PI)) by (apply complex_eq; simpl; field).
  unfold Ccos, Csin. simpl re. simpl im.
  rewrite cos_neg, sin_neg, cos_PI, sin_PI, cosh_0, sinh_0.
  apply matrix_eq; apply complex_eq; simpl; field.
Qed.

Lemma product_minus_identity_twice (M : Matrix22) :
  product_formula (product_formula M minus_identity) minus_identity = M.
Proof. apply matrix_eq; simpl; complex_ring. Qed.

Lemma stack_of_halfwaves (n : nat) (M : Matrix22) :
  fold_left (fun A layer =>
               product_formula A (spec_layerP (RtoC 1) 2 (RtoC 1) layer))
            (repeat halfwave n) M
  = if Z.even (Z.of_nat n) then M else product_formula M minus_identity.
Proof.
  revert M. induction n as [| n IH]; intros M.
  - reflexivity.
  - rewrite Nat2Z.inj_succ, Z.even_succ, <- Z.negb_even.
    cbn [repeat fold_left]. rewrite IH, halfwave_matrices.
    destruct (Z.even (Z.of_nat n)); cbn [negb].
    + reflexivity.
    + apply product_minus_identity_twice.
Qed.

Lemma long_stack_length : Z.of_nat (length long_stack) = 2147483649%Z.
Proof.
  unfold long_stack. rewrite repeat_length. unfold long_stack_size.
  apply Z2Nat.id. lia.
Qed.

Lemma long_stack_product :
  spec_stack (spec_layerP (RtoC 1) 2 (RtoC 1)) long_stack = minus_identity.
Proof.
  unfold spec_stack, long_stack. rewrite stack_of_halfwaves.
  replace (Z.of_nat long_stack_size) with 2147483649%Z
    by (symmetry; unfold long_stack_size; apply Z2Nat.id; lia).
  change (Z.even 2147483649) with false.
  apply product_formula_identity_l.
Qed.

(** C2 does not hold on the code for a stack whose size does not fit in an
    [int].  On [2^31 + 1] half-wave layers [layersAmount] is [- 2^31 + 1]:
    the loop visits no layer and leaves the two products at the identity,
    where the product of the matrices of all the layers, taken on the right
    from the identity, is minus the identity. *)
Theorem productMatrices_long_stack :
  to_int (Z.of_nat (length long_stack)) = (-2147483647)%Z
  /\ productMatrices (RtoC 1) 2 (RtoC 1) long_stack = (identity, identity)
  /\ spec_stack (spec_layerP (RtoC 1) 2 (RtoC 1)) long_stack = minus_identity
  /\ fst (productMatrices (RtoC 1) 2 (RtoC 1) long_stack)
     <> spec_stack (spec_layerP (RtoC 1) 2 (RtoC 1)) long_stack.
Proof.
  assert (Hloop : productMatrices (RtoC 1) 2 (RtoC 1) long_stack
                  = (identity, identity)).
  { unfold productMatrices. rewrite long_stack_length.
    change (to_int 2147483649) with (-2147483647)%Z.
    reflexivity. }
  split; [rewrite long_stack_length; reflexivity |].
  split; [exact Hloop |].
  split; [exact long_stack_product |].
  rewrite Hloop, long_stack_product. cbn [fst].
  intros H. apply (f_equal (fun M => re (m11 M))) in H. simpl in H. lra.
Qed.

(** ** [simulate] and the formulas of the specification *)

Lemma blend_eq (polarization : double) (xP xS : complex) :
  cos polarization * cos polarization * Cnorm xP
  + sin polarization * sin polarization * Cnorm xS
  = spec_blend polarization xP xS.
Proof.
  unfold spec_blend. rewrite !Cabs_sqr. unfold Rsqr. ring.
Qed.

(** The function computes the quantities of the specification from the
    product matrices of its loop. *)
Lemma simulate_refines (incidentCosTheta : complex) (lambda polarization : double)
    (nIncident nExit : complex) (layers : list Layer)
    (out : request) (mem : output -> double) :
  simulate incidentCosTheta lambda polarization nIncident nExit layers out mem
  = spec_simulate incidentCosTheta polarization nIncident nExit
      (fst (productMatrices incidentCosTheta lambda nIncident layers))
      (snd (productMatrices incidentCosTheta lambda nIncident layers))
      out mem.
Proof.
  unfold simulate, spec_simulate.
  destruct (productMatrices incidentCosTheta lambda nIncident layers)
    as [MP MS].
  cbn [fst snd]. cbv zeta.
  rewrite snell_eq, !blend_eq, Cmul_div_assoc.
  reflexivity.
Qed.

Ltac by_cases_on_request out :=
  rewrite simulate_refines; unfold spec_simulate;
  destruct out as [r t a p d]; cbn [reflectance transmittance absorptance psi delta] in *;
  subst;
  repeat match goal with
         | b : bool |- _ => destruct b
         end;
  try destruct (Req_dec_T _ 0);
  cbn [andb store_to fprintf_stderr load cell events app output_eqb
       stored_outputs printed flat_map enabled
       reflectance transmittance absorptance psi delta].

Ltac in_list := cbn [In]; repeat first [left; reflexivity | right].

(** The content of the reflectance cell after a call that requests it. *)
Lemma reflectance_cell (incidentCosTheta : complex)
    (lambda polarization : double) (nIncident nExit : complex)
    (layers : list Layer) (out : request) (mem : output -> double) :
  reflectance out = true ->
  cell (simulate incidentCosTheta lambda polarization nIncident nExit
          layers out mem) Reflectance
  = spec_blend polarization
      (spec_rP incidentCosTheta nIncident nExit
         (fst (productMatrices incidentCosTheta lambda nIncident layers)))
      (spec_rS incidentCosTheta nIncident nExit
         (snd (productMatrices incidentCosTheta lambda nIncident layers))).
Proof.
  intros Hr. by_cases_on_request out; reflexivity.
Qed.

(** X24.  When reflectance is requested, the call stores
    [cos^2 (polarization) |r_P|^2 + sin^2 (polarization) |r_S|^2] in it,
    where, in each polarization basis, [r = (B - C / Y_inc) / (B + C / Y_inc)],
    [B = M.m11 + M.m12 Y_exit], [C = M.m21 + M.m22 Y_exit], [M] is the
    product matrix of that basis after the loop, the incident admittances
    are [n_inc / cos_inc] and [n_inc cos_inc], and the exit admittances are
    formed in the same way with the exit cosine of the function: the square
    root of [1 - (1 - cos_inc^2) (n_inc / n_exit)^2] that [std::sqrt]
    returns, which is the principal one away from the negative real axis. *)
Theorem simulate_reflectance (incidentCosTheta : complex)
    (lambda polarization : double) (nIncident nExit : complex)
    (layers : list Layer) (out : request) (mem : output -> double) :
  reflectance out = true ->
  let MP := fst (productMatrices incidentCosTheta lambda nIncident layers) in
  let MS := snd (productMatrices incidentCosTheta lambda nIncident layers) in
  let v := spec_blend polarization
             (spec_rP incidentCosTheta nIncident nExit MP)
             (spec_rS incidentCosTheta nIncident nExit MS) in
  let st := simulate incidentCosTheta lambda polarization nIncident nExit
              layers out mem in
  In (Store Reflectance v) (events st) /\ cell st Reflectance = v.
Proof.
  intros Hr MP MS v st. subst st v MP MS.
  by_cases_on_request out; (split; [in_list | reflexivity]).
Qed.

Lemma simulate_reflectance_witness :
  reflectance all_outputs = true
  /\ cell (simulate (RtoC 1) 500 0 (RtoC 1) (RtoC 1.5) [halfwave]
             all_outputs zeroed) Reflectance
     = spec_blend 0
         (spec_rP (RtoC 1) (RtoC 1) (RtoC 1.5)
            (fst (productMatrices (RtoC 1) 500 (RtoC 1) [halfwave])))
         (spec_rS (RtoC 1) (RtoC 1) (RtoC 1.5)
            (snd (productMatrices (RtoC 1) 500 (RtoC 1) [halfwave]))).
Proof.
  split.
  - reflexivity.
  - exact (proj2 (simulate_reflectance (RtoC 1) 500 0 (RtoC 1) (RtoC 1.5)
                    [halfwave] all_outputs zeroed eq_refl)).
Defined.




(** C5.  The call stores through an output pointer only if that pointer is
    not null and the outputs it depends on are requested: transmittance
    with reflectance, absorptance with transmittance and reflectance, psi
    and delta together.  It stores through every such pointer, and the cell
    of any other output keeps the content it had before the call. *)
Theorem simulate_frame (incidentCosTheta : complex)
    (lambda polarization : double) (nIncident nExit : complex)
    (layers : list Layer) (out : request) (mem : output -> double)
    (q : output) :
  let st := simulate incidentCosTheta lambda polarization nIncident nExit
              layers out mem in
  (In q (stored_outputs (events st)) <-> enabled out q = true)
  /\ (enabled out q = false -> cell st q = mem q).
Proof.
  intros st. subst st.
  by_cases_on_request out; destruct q;
    cbn [enabled andb output_eqb In
         reflectance transmittance absorptance psi delta];
    (split; [split; intros H;
             solve [reflexivity | discriminate | tauto
                   | repeat (destruct H as [H | H]; try discriminate H);
                     contradiction]
            | intros H; solve [reflexivity | discriminate]]).
Qed.

(** Transmittance asked for without reflectance: its cell is not written. *)
Lemma simulate_frame_witness :
  enabled (mkRequest false true true true false) Transmittance = false
  /\ cell (simulate (RtoC 1) 500 0 (RtoC 1) (RtoC 1.5) [halfwave]
             (mkRequest false true true true false) zeroed) Transmittance
     = zeroed Transmittance.
Proof.
  split.
  - reflexivity.
  - exact (proj2 (simulate_frame (RtoC 1) 500 0 (RtoC 1) (RtoC 1.5)
                    [halfwave] (mkRequest false true true true false)
                    zeroed Transmittance) eq_refl).
Defined.

(** C9.  When absorptance is requested together with reflectance and
    transmittance, the call stores [1 - reflectance - transmittance] in it;
    hence the three outputs add up to 1, in particular for a stack of
    layers with real refractive indices. *)
Theorem simulate_absorptance (incidentCosTheta : complex)
    (lambda polarization : double) (nIncident nExit : complex)
    (layers : list Layer) (out : request) (mem : output -> double) :
  reflectance out = true ->
  transmittance out = true ->
  absorptance out = true ->
  let st := simulate incidentCosTheta lambda polarization nIncident nExit
              layers out mem in
  In (Store Absorptance (1 - cell st Reflectance - cell st Transmittance))
     (events st)
  /\ cell st Absorptance = 1 - cell st Reflectance - cell st Transmittance
  /\ (lossless layers ->
      cell st Reflectance + cell st Transmittance + cell st Absorptance = 1).
Proof.
  intros Hr Ht Ha st. subst st.
  by_cases_on_request out;
    (split; [in_list | split; [reflexivity | intros _; ring]]).
Qed.

Lemma simulate_absorptance_witness :
  reflectance all_outputs = true
  /\ transmittance all_outputs = true
  /\ absorptance all_outputs = true
  /\ lossless [halfwave]
  /\ (let st := simulate (RtoC 1) 500 0 (RtoC 1) (RtoC 1.5) [halfwave]
                  all_outputs zeroed in
      cell st Reflectance + cell st Transmittance + cell st Absorptance = 1).
Proof.
  assert (Hl : lossless [halfwave])
    by (constructor; [reflexivity | constructor]).
  split; [reflexivity | split; [reflexivity | split; [reflexivity |]]].
  split; [exact Hl |].
  exact (proj2 (proj2 (simulate_absorptance (RtoC 1) 500 0 (RtoC 1)
                         (RtoC 1.5) [halfwave] all_outputs zeroed
                         eq_refl eq_refl eq_refl)) Hl).
Defined.

(** ** The bare interface: no layer, normal incidence *)

Lemma productMatrices_nil (c : complex) (lambda : double) (n_inc : complex) :
  productMatrices c lambda n_inc [] = (identity, identity).
Proof. reflexivity. Qed.

Lemma bare_rP : spec_rP (RtoC 1) (RtoC 1) (RtoC 1.5) identity = RtoC (- (1 / 5)).
Proof.
  replace 1.5 with (3 / 2) by lra.
  unfold spec_rP, spec_admittanceP. rewrite exit_cosine_normal, !Cdiv_one.
  apply complex_eq; simpl; field.
Qed.

Lemma bare_rS : spec_rS (RtoC 1) (RtoC 1) (RtoC 1.5) identity = RtoC (- (1 / 5)).
Proof.
  replace 1.5 with (3 / 2) by lra.
  unfold spec_rS, spec_admittanceS. rewrite exit_cosine_normal, !Cmul_1_r.
  apply complex_eq; simpl; field.
Qed.

Lemma Cabs_sqr_fifth : (Cabs (RtoC (- (1 / 5))))² = 0.04.
Proof. rewrite Cabs_sqr. unfold Cnorm. simpl. lra. Qed.

(** C8.  With no layer, [nIncident = 1.0], [nExit = 1.5] and
    [incidentCosTheta = 1], the reflectance stored is
    [((1 - 1.5) / (1 + 1.5))^2 = 0.04] for every polarization angle, and
    [|r_P|^2] and [|r_S|^2] are both 0.04. *)
Theorem simulate_bare_interface (lambda polarization : double)
    (out : request) (mem : output -> double) :
  reflectance out = true ->
  let MP := fst (productMatrices (RtoC 1) lambda (RtoC 1) []) in
  let MS := snd (productMatrices (RtoC 1) lambda (RtoC 1) []) in
  cell (simulate (RtoC 1) lambda polarization (RtoC 1) (RtoC 1.5) [] out mem)
       Reflectance
  = ((1 - 1.5) / (1 + 1.5))²
  /\ ((1 - 1.5) / (1 + 1.5))² = 0.04
  /\ (Cabs (spec_rP (RtoC 1) (RtoC 1) (RtoC 1.5) MP))² = 0.04
  /\ (Cabs (spec_rS (RtoC 1) (RtoC 1) (RtoC 1.5) MS))² = 0.04.
Proof.
  intros Hr MP MS. subst MP MS.
  assert (Hval : ((1 - 1.5) / (1 + 1.5))² = 0.04) by (unfold Rsqr; lra).
  rewrite (reflectance_cell (RtoC 1) lambda polarization (RtoC 1)
             (RtoC 1.5) [] out mem Hr), Hval, productMatrices_nil.
  cbn [fst snd]. rewrite bare_rP, bare_rS.
  split; [| split; [reflexivity | split; apply Cabs_sqr_fifth]].
  unfold spec_blend. rewrite Cabs_sqr_fifth.
  pose proof (sin2_cos2 polarization) as H. lra.
Qed.

Lemma simulate_bare_interface_witness :
  reflectance all_outputs = true
  /\ cell (simulate (RtoC 1) 500 (PI / 2) (RtoC 1) (RtoC 1.5) []
             all_outputs zeroed) Reflectance
     = ((1 - 1.5) / (1 + 1.5))².
Proof.
  split.
  - reflexivity.
  - exact (proj1 (simulate_bare_interface 500 (PI / 2) all_outputs zeroed
                    eq_refl)).
Defined.

(** ** [asin] and [acos] on the real segment *)

Lemma Csqrt_real_nonneg (z : complex) (a : R) :
  re z = a -> im z = 0 -> 0 <= a -> Csqrt z = RtoC (sqrt a).
Proof.
  intros Hre Him Ha. unfold Csqrt, Cabs, Cnorm. rewrite Hre, Him.
  replace (a * a + 0 * 0) with (a * a) by ring. rewrite sqrt_square by exact Ha.
  replace ((a + a) / 2) with a by field.
  replace ((a - a) / 2) with 0 by field.
  rewrite sqrt_0. apply complex_eq; simpl; [reflexivity | ring].
Qed.

Lemma Csqrt_real_nonpos (z : complex) (a : R) :
  re z = a -> im z = 0 -> a <= 0 -> Csqrt z = mkC 0 (sqrt (- a)).
Proof.
  intros Hre Him Ha. unfold Csqrt, Cabs, Cnorm. rewrite Hre, Him.
  replace (a * a + 0 * 0) with (- a * - a) by ring.
  rewrite sqrt_square by lra.
  replace ((- a + a) / 2) with 0 by field.
  replace ((- a - a) / 2) with (- a) by field.
  rewrite sqrt_0. destruct (Rle_dec 0 0) as [_ | Hn]; [| lra].
  apply complex_eq; simpl; [reflexivity | ring].
Qed.

Lemma one_minus_sqr_nonneg (x : R) : -1 <= x <= 1 -> 0 <= 1 - x².
Proof. intros H. unfold Rsqr. nra. Qed.

Lemma sqrt_one_minus_sqr_pos (x : R) : -1 < x < 1 -> 0 < sqrt (1 - x²).
Proof. intros H. apply sqrt_lt_R0. unfold Rsqr. nra. Qed.

(** The angle of the point [(sqrt (1 - x^2), x)] of the unit circle. *)
Lemma atan2_asin (x : R) :
  -1 <= x <= 1 -> atan2 x (sqrt (1 - x²)) = Ratan.asin x.
Proof.
  intros [Hlo Hhi]. unfold atan2.
  destruct (Req_dec x 1) as [-> | Hn1].
  - rewrite Rsqr_1, Rminus_diag, sqrt_0, asin_1.
    repeat (destruct (Rlt_dec _ _)); lra.
  - destruct (Req_dec x (-1)) as [-> | Hm1].
    + replace (1 - (-1)²) with 0 by (unfold Rsqr; ring). rewrite sqrt_0.
      unfold Ratan.asin. destruct (Rle_dec (-1) (-1)) as [_ | Hn]; [| lra].
      repeat (destruct (Rlt_dec _ _)); lra.
    + pose proof (sqrt_one_minus_sqr_pos x ltac:(lra)) as Hpos.
      destruct (Rlt_dec 0 (sqrt (1 - x²))) as [_ | Hn]; [| lra].
      symmetry. apply asin_atan. lra.
Qed.

(** The angle of the point [(x, sqrt (1 - x^2))] of the unit circle. *)
Lemma atan2_acos (x : R) :
  -1 <= x <= 1 -> atan2 (sqrt (1 - x²)) x = Ratan.acos x.
Proof.
  intros [Hlo Hhi]. unfold atan2.
  pose proof (sqrt_pos (1 - x²)) as Hs.
  destruct (Rlt_dec 0 x) as [Hpos | Hnpos].
  - symmetry. apply acos_atan. exact Hpos.
  - destruct (Rlt_dec x 0) as [Hneg | Hnneg].
    + destruct (Rle_dec 0 (sqrt (1 - x²))) as [_ | Hn]; [| lra].
      replace x with (- - x) at 3 by ring.
      rewrite acos_opp, acos_atan by lra.
      rewrite <- Rsqr_neg.
      replace (sqrt (1 - x²) / x) with (- (sqrt (1 - x²) / - x)) by (field; lra).
      rewrite atan_opp. ring.
    + assert (x = 0) as -> by lra.
      rewrite Rsqr_0, Rminus_0_r, sqrt_1, acos_0.
      destruct (Rlt_dec 0 1) as [_ | Hn]; [reflexivity | lra].
Qed.

Lemma unit_circle_abs (z : complex) (x : R) :
  -1 <= x <= 1 ->
  (re z = sqrt (1 - x²) /\ im z = x) \/ (re z = x /\ im z = sqrt (1 - x²)) ->
  ln (Cabs z) = 0.
Proof.
  intros Hx Hz. unfold Cabs, Cnorm.
  pose proof (sqrt_sqrt (1 - x²) (one_minus_sqr_nonneg x Hx)) as Hsq.
  replace (re z * re z + im z * im z) with 1.
  - rewrite sqrt_1. apply ln_1.
  - destruct Hz as [[-> ->] | [-> ->]]; rewrite Hsq; unfold Rsqr; ring.
Qed.

Lemma asin_real (x : R) :
  -1 <= x <= 1 -> asin (RtoC x) = RtoC (Ratan.asin x).
Proof.
  intros Hx. unfold asin.
  rewrite (Csqrt_real_nonneg _ (1 - x²))
    by (simpl; unfold Rsqr; try ring; apply (one_minus_sqr_nonneg x Hx)).
  set (w := Cadd (Cmul onei (RtoC x)) (RtoC (sqrt (1 - x²)))).
  assert (Hre : re w = sqrt (1 - x²)) by (simpl; ring).
  assert (Him : im w = x) by (simpl; ring).
  unfold Clog, Carg.
  rewrite (unit_circle_abs w x Hx) by (left; split; assumption).
  rewrite Hre, Him, atan2_asin by exact Hx.
  apply complex_eq; simpl; ring.
Qed.

Lemma acos_real (x : R) :
  -1 <= x <= 1 -> acos (RtoC x) = RtoC (Ratan.acos x).
Proof.
  intros Hx. unfold acos.
  rewrite (Csqrt_real_nonpos _ (- (1 - x²)))
    by (simpl; unfold Rsqr; try ring;
        pose proof (one_minus_sqr_nonneg x Hx); unfold Rsqr in *; lra).
  rewrite Ropp_involutive.
  set (w := Cadd (RtoC x) (mkC 0 (sqrt (1 - x²)))).
  assert (Hre : re w = x) by (simpl; ring).
  assert (Him : im w = sqrt (1 - x²)) by (simpl; ring).
  unfold Clog, Carg.
  rewrite (unit_circle_abs w x Hx) by (right; split; assumption).
  rewrite Hre, Him, atan2_acos by exact Hx.
  apply complex_eq; simpl; ring.
Qed.

(** In exact arithmetic, where zero has no sign and the square root of a
    negative real is on the positive imaginary axis:
    [asin z = - i ln (i z + sqrt (1 - z^2))] and
    [acos z = - i ln (z + sqrt (z^2 - 1))] for every complex [z], and on a
    real [x] of [[-1, 1]] they are the real arc sine and arc cosine of [x],
    with imaginary part zero. *)
Lemma asin_acos_exact :
  (forall z,
      asin z = Cneg (Cmul onei (Clog (Cadd (Cmul onei z)
                                           (Csqrt (Csub (RtoC 1) (Csquare z)))))))
  /\ (forall z,
         acos z = Cneg (Cmul onei (Clog (Cadd z
                                           (Csqrt (Csub (Csquare z) (RtoC 1)))))))
  /\ (forall x : R,
         -1 <= x <= 1 ->
         asin (RtoC x) = mkC (Ratan.asin x) 0
         /\ acos (RtoC x) = mkC (Ratan.acos x) 0).
Proof.
  split; [| split].
  - intros z. unfold asin, Csquare.
    replace (RsubC 1 (Cmul z z)) with (Csub (RtoC 1) (Cmul z z))
      by complex_ring.
    complex_ring.
  - intros z. unfold acos, Csquare.
    replace (CsubR (Cmul z z) 1) with (Csub (Cmul z z) (RtoC 1))
      by complex_ring.
    complex_ring.
  - intros x Hx. split; [apply asin_real | apply acos_real]; exact Hx.
Qed.

(** ** [acos] with signed zeros *)

Lemma sdouble_eq (a b : SignedZero.sdouble) :
  SignedZero.val a = SignedZero.val b ->
  SignedZero.signbit a = SignedZero.signbit b -> a = b.
Proof. destruct a, b; simpl; intros -> ->; reflexivity. Qed.

Lemma sign_of_neg (v : R) (b : bool) : v < 0 -> SignedZero.sign_of v b = true.
Proof.
  intros H. unfold SignedZero.sign_of.
  destruct (Rlt_dec v 0); [reflexivity | lra].
Qed.

Lemma sign_of_pos (v : R) (b : bool) : 0 < v -> SignedZero.sign_of v b = false.
Proof.
  intros H. unfold SignedZero.sign_of.
  destruct (Rlt_dec v 0); [lra |].
  destruct (Rlt_dec 0 v); [reflexivity | lra].
Qed.

Lemma sign_of_zero (v : R) (b : bool) : v = 0 -> SignedZero.sign_of v b = b.
Proof.
  intros ->. unfold SignedZero.sign_of.
  destruct (Rlt_dec 0 0); [lra | reflexivity].
Qed.

Section NegativeReal.

Import SignedZero.

Variable x : R.
Hypothesis Hx : -1 < x < 0.

Let s := sqrt (1 - x * x).

Lemma s_pos : 0 < s.
Proof. apply sqrt_lt_R0. nra. Qed.

Lemma real_negative : real x = mkSC (mkD x true) (mkD 0 false).
Proof.
  unfold real, lit. now rewrite sign_of_neg, sign_of_zero by lra.
Qed.

(** [z * z]: the imaginary part is [x * 0.0 + 0.0 * x], a sum of two
    negative zeros. *)
Lemma square_negative :
  Cmul (real x) (real x) = mkSC (mkD (x * x) false) (mkD 0 true).
Proof.
  rewrite real_negative. unfold Cmul, Dsub, Dadd, Dmul, Dopp. simpl.
  f_equal; apply sdouble_eq; simpl; try ring.
  - apply sign_of_pos. nra.
  - apply sign_of_zero. ring.
Qed.

Lemma square_minus_one :
  CsubR (Cmul (real x) (real x)) (lit 1)
  = mkSC (mkD (x * x - 1) true) (mkD 0 true).
Proof.
  rewrite square_negative. unfold CsubR, Dsub, Dadd, Dopp, lit. simpl.
  f_equal. apply sdouble_eq; simpl; [ring | apply sign_of_neg; nra].
Qed.

(** The square root is taken below the cut. *)
Lemma sqrt_below_cut :
  Csqrt (mkSC (mkD (x * x - 1) true) (mkD 0 true))
  = mkSC (mkD 0 false) (mkD (- s) true).
Proof.
  unfold Csqrt, Cabs. simpl.
  replace ((x * x - 1) * (x * x - 1) + 0 * 0)
    with ((1 - x * x) * (1 - x * x)) by ring.
  rewrite sqrt_square by nra.
  replace ((1 - x * x + (x * x - 1)) / 2) with 0 by field.
  replace ((1 - x * x - (x * x - 1)) / 2) with (1 - x * x) by field.
  rewrite sqrt_0. fold s.
  f_equal. apply sdouble_eq; simpl; [ring | reflexivity].
Qed.

Lemma sum_below_axis :
  Cadd (real x) (mkSC (mkD 0 false) (mkD (- s) true))
  = mkSC (mkD x true) (mkD (- s) true).
Proof.
  pose proof s_pos.
  rewrite real_negative. unfold Cadd, Dadd. simpl.
  f_equal; apply sdouble_eq; simpl; try ring; apply sign_of_neg; lra.
Qed.

Lemma log_below_axis :
  Clog (mkSC (mkD x true) (mkD (- s) true))
  = mkSC (mkD 0 false) (mkD (atan (- s / x) - PI) true).
Proof.
  unfold Clog, Cabs, Datan2, lit. simpl.
  replace (x * x + - s * - s) with 1
    by (unfold s; rewrite Rmult_opp_opp, sqrt_sqrt by nra; ring).
  rewrite sqrt_1, ln_1.
  destruct (Rlt_dec 0 x) as [Hpos | _]; [lra |].
  destruct (Rlt_dec x 0) as [_ | Hn]; [| lra].
  f_equal. apply sdouble_eq; simpl; [reflexivity |].
  apply sign_of_zero. reflexivity.
Qed.

(** On a negative real argument the code returns minus the arc cosine. *)
Lemma acos_negative_real :
  val (re (acos (real x))) = - Ratan.acos x.
Proof.
  unfold acos.
  rewrite square_minus_one, sqrt_below_cut, sum_below_axis, log_below_axis.
  unfold Cmul, Cneg, onei, Dsub, Dadd, Dmul, Dopp, lit. simpl.
  replace x with (- - x) at 2 by ring.
  rewrite acos_opp, acos_atan by lra.
  replace (sqrt (1 - (- x)²) / - x) with (- s / x)
    by (unfold s, Rsqr; replace (- x * - x) with (x * x) by ring;
        field; lra).
  ring.
Qed.

End NegativeReal.

Section PositiveReal.

Import SignedZero.

Variable x : R.
Hypothesis Hx : 0 < x < 1.

(** On a positive real argument [z * z] has the imaginary part [+0.0],
    the square root is taken above the cut and the code returns the arc
    cosine. *)
Lemma real_positive : real x = mkSC (mkD x false) (mkD 0 false).
Proof.
  unfold real, lit. now rewrite sign_of_pos, sign_of_zero by lra.
Qed.

Lemma square_positive :
  CsubR (Cmul (real x) (real x)) (lit 1)
  = mkSC (mkD (x * x - 1) true) (mkD 0 false).
Proof.
  rewrite real_positive. unfold CsubR, Cmul, Dsub, Dadd, Dmul, Dopp, lit.
  cbn [re im val signbit xorb negb andb].
  f_equal; apply sdouble_eq; cbn [val signbit]; try ring.
  - apply sign_of_neg. nra.
  - apply sign_of_zero. ring.
Qed.

Lemma sqrt_above_cut :
  Csqrt (mkSC (mkD (x * x - 1) true) (mkD 0 false))
  = mkSC (mkD 0 false) (mkD (sqrt (1 - x * x)) false).
Proof.
  unfold Csqrt, Cabs. cbn [re im val signbit].
  replace ((x * x - 1) * (x * x - 1) + 0 * 0)
    with ((1 - x * x) * (1 - x * x)) by ring.
  rewrite sqrt_square by nra.
  replace ((1 - x * x + (x * x - 1)) / 2) with 0 by field.
  replace ((1 - x * x - (x * x - 1)) / 2) with (1 - x * x) by field.
  rewrite sqrt_0.
  f_equal. apply sdouble_eq; cbn [val signbit]; [ring | reflexivity].
Qed.

Lemma acos_positive_real :
  val (re (acos (real x))) = Ratan.acos x.
Proof.
  assert (Hs : 0 < sqrt (1 - x * x)) by (apply sqrt_lt_R0; nra).
  unfold acos. rewrite square_positive, sqrt_above_cut, real_positive.
  unfold Clog, Cadd, Cabs, Datan2, Dadd.
  cbn [re im val signbit].
  destruct (Rlt_dec 0 (x + 0)) as [_ | Hn]; [| lra].
  unfold Cmul, Cneg, onei, Dsub, Dadd, Dmul, Dopp, lit.
  cbn [re im val signbit].
  rewrite acos_atan by lra.
  replace ((0 + sqrt (1 - x * x)) / (x + 0))
    with (sqrt (1 - x²) / x) by (unfold Rsqr; field; lra).
  ring.
Qed.

End PositiveReal.

(** C7.  The arc cosine of the claim does not hold on the code: at the real
    argument [-0.5], that is [complex(-0.5, 0.0)], [acos] returns minus the
    arc cosine of [-0.5].  The imaginary part of [z * z] is [-0.0], so
    [sqrt(z * z - 1.0)] is taken below the branch cut and the logarithm has
    the argument [- acos (-0.5)].  The standard arc cosine of [-0.5] is
    positive. *)
Theorem acos_minus_half :
  SignedZero.val (SignedZero.re (SignedZero.acos (SignedZero.real (- (1 / 2)))))
  = - Ratan.acos (- (1 / 2))
  /\ SignedZero.val
       (SignedZero.re (SignedZero.acos (SignedZero.real (- (1 / 2)))))
     <> Ratan.acos (- (1 / 2)).
Proof.
  assert (Hx : -1 < - (1 / 2) < 0) by lra.
  pose proof (acos_negative_real (- (1 / 2)) Hx) as Hval.
  pose proof (acos_bound_lt (- (1 / 2)) ltac:(lra)) as [Hpos _].
  split; [exact Hval |]. rewrite Hval. lra.
Qed.

(** ** The exit cosine beyond the critical angle

    For two real media and a real incident cosine in [0, 1], the argument
    of the square root of the exit cosine is real and its imaginary part is
    [-0.0].  Beyond the critical angle the argument is negative: the
    principal square root is on the positive imaginary axis, and the one
    that the function takes is on the negative imaginary axis. *)

Lemma sign_of_nonneg (v : R) : 0 <= v -> SignedZero.sign_of v false = false.
Proof.
  intros H. unfold SignedZero.sign_of.
  destruct (Rlt_dec v 0); [lra |].
  destruct (Rlt_dec 0 v); reflexivity.
Qed.

Section RealMedia.

Import SignedZero.

Variables x a e : R.
Hypothesis Hx : 0 <= x <= 1.
Hypothesis Ha : 0 < a.
Hypothesis He : 0 < e.

Lemma positive_zeros_real (v : R) :
  0 <= v -> positive_zeros (RtoC v) = mkSC (mkD v false) (mkD 0 false).
Proof.
  intros Hv. unfold positive_zeros, lit, RtoC. simpl.
  now rewrite sign_of_nonneg, sign_of_zero by lra.
Qed.

(** [incidentCosTheta * incidentCosTheta] *)
Lemma square_real :
  Cmul (positive_zeros (RtoC x)) (positive_zeros (RtoC x))
  = mkSC (mkD (x * x) false) (mkD 0 false).
Proof.
  rewrite positive_zeros_real by lra.
  unfold Cmul, Dsub, Dadd, Dmul, Dopp. simpl.
  f_equal; apply sdouble_eq; simpl; try ring.
  - apply sign_of_nonneg. nra.
  - apply sign_of_zero. ring.
Qed.

(** [1. - squareIncidentCosTheta]: the imaginary part is [-0.0]. *)
Lemma one_minus_square_real :
  RsubC (lit 1) (mkSC (mkD (x * x) false) (mkD 0 false))
  = mkSC (mkD (1 - x * x) false) (mkD 0 true).
Proof.
  unfold RsubC, Dadd, Dopp, lit. simpl.
  rewrite (sign_of_pos 1) by lra.
  f_equal; apply sdouble_eq; simpl; try ring; try reflexivity.
  apply sign_of_nonneg. nra.
Qed.

(** [nIncident / n] *)
Lemma ratio_real :
  Cdiv (positive_zeros (RtoC a)) (positive_zeros (RtoC e))
  = mkSC (mkD (a / e) false) (mkD 0 false).
Proof.
  rewrite !positive_zeros_real by lra.
  unfold Cdiv. simpl.
  destruct (Rlt_dec (Rabs e) (Rabs 0)) as [H | _].
  { rewrite Rabs_R0 in H. pose proof (Rabs_pos e). lra. }
  unfold Ddiv, Dsub, Dadd, Dmul, Dopp. simpl.
  assert (Hd : 0 * (0 / e) + e = e) by (field; lra).
  assert (Hn : 0 * (0 / e) + a = a) by (field; lra).
  assert (Hz : 0 + - (a * (0 / e)) = 0) by (field; lra).
  rewrite Hd, Hn, Hz.
  rewrite (sign_of_nonneg a), (sign_of_nonneg e), (sign_of_nonneg 0) by lra.
  f_equal; apply sdouble_eq; simpl; try reflexivity.
  field. lra.
Qed.

(** A product by the ratio has the imaginary part [+0.0], whichever zero
    the imaginary part of the other factor is. *)
Lemma times_ratio (v : R) (b : bool) :
  0 <= v ->
  Cmul (mkSC (mkD v false) (mkD 0 b)) (mkSC (mkD (a / e) false) (mkD 0 false))
  = mkSC (mkD (v * (a / e)) false) (mkD 0 false).
Proof.
  intros Hv. assert (Hr : 0 < a / e) by (apply Rdiv_lt_0_compat; lra).
  unfold Cmul, Dsub, Dadd, Dmul, Dopp. simpl.
  f_equal; apply sdouble_eq; simpl; try ring.
  - apply sign_of_nonneg. nra.
  - rewrite sign_of_zero by ring. reflexivity.
Qed.

(** The argument of the square root has the imaginary part [-0.0]. *)
Lemma snell_signbit_real :
  snell_signbit (RtoC x) (RtoC a) (RtoC e) = true.
Proof.
  assert (Hr : 0 < a / e) by (apply Rdiv_lt_0_compat; lra).
  unfold snell_signbit.
  rewrite square_real, one_minus_square_real, ratio_real.
  assert (H1 : 0 <= 1 - x * x) by nra.
  assert (H2 : 0 <= (1 - x * x) * (a / e)) by (apply Rmult_le_pos; lra).
  rewrite (times_ratio _ _ H1), (times_ratio _ _ H2).
  reflexivity.
Qed.

End RealMedia.

Lemma Cdiv_real (a e : R) : e <> 0 -> Cdiv (RtoC a) (RtoC e) = RtoC (a / e).
Proof. intros He. apply complex_eq; cbn [re im Cdiv RtoC]; field; exact He. Qed.

(** The argument of the square root for two real media. *)
Lemma snell_radicand_real (x a e : R) :
  e <> 0 ->
  RsubC 1 (Cmul (RsubC 1 (Csquare (RtoC x))) (Csquare (Cdiv (RtoC a) (RtoC e))))
  = RtoC (1 - (1 - x * x) * (a / e) * (a / e)).
Proof.
  intros He. rewrite (Cdiv_real a e He). unfold Csquare.
  apply complex_eq; cbn [re im RsubC Cmul RtoC]; ring.
Qed.

Lemma spec_cosine_evanescent (x a e : R) :
  0 < e -> 1 < (1 - x * x) * (a / e) * (a / e) ->
  spec_cosine (RtoC x) (RtoC a) (RtoC e)
  = mkC 0 (sqrt ((1 - x * x) * (a / e) * (a / e) - 1)).
Proof.
  intros He Hc. unfold spec_cosine. rewrite snell_radicand_real by lra.
  rewrite (Csqrt_real_nonpos _ (1 - (1 - x * x) * (a / e) * (a / e)));
    [| reflexivity | reflexivity | lra].
  f_equal. f_equal. ring.
Qed.

Lemma exit_cosine_evanescent (x a e : R) :
  0 <= x <= 1 -> 0 < a -> 0 < e -> 1 < (1 - x * x) * (a / e) * (a / e) ->
  exit_cosine (RtoC x) (RtoC a) (RtoC e)
  = mkC 0 (- sqrt ((1 - x * x) * (a / e) * (a / e) - 1)).
Proof.
  intros Hx Ha He Hc. unfold exit_cosine.
  rewrite (snell_signbit_real x a e Hx Ha He).
  rewrite Csqrt_signed_below_cut;
    [| rewrite snell_radicand_real by lra; cbn [re RtoC]; lra
     | rewrite snell_radicand_real by lra; reflexivity].
  fold (spec_cosine (RtoC x) (RtoC a) (RtoC e)).
  rewrite (spec_cosine_evanescent x a e He Hc).
  apply complex_eq; cbn [re im Cneg]; ring.
Qed.

(** From the index [25/16] to the index 1 at the incident cosine [3/5]:
    the argument of the square root is [- 9/16]. *)
Lemma glass_air_root :
  sqrt ((1 - 3 / 5 * (3 / 5)) * (25 / 16 / 1) * (25 / 16 / 1) - 1) = 3 / 4.
Proof.
  replace ((1 - 3 / 5 * (3 / 5)) * (25 / 16 / 1) * (25 / 16 / 1) - 1)
    with (3 / 4 * (3 / 4)) by field.
  apply sqrt_square. lra.
Qed.

Lemma exit_cosine_glass_air :
  exit_cosine (RtoC (3 / 5)) (RtoC (25 / 16)) (RtoC 1) = mkC 0 (- (3 / 4)).
Proof.
  rewrite exit_cosine_evanescent by lra. now rewrite glass_air_root.
Qed.

Lemma spec_cosine_glass_air :
  spec_cosine (RtoC (3 / 5)) (RtoC (25 / 16)) (RtoC 1) = mkC 0 (3 / 4).
Proof.
  rewrite spec_cosine_evanescent by lra. now rewrite glass_air_root.
Qed.

(** *** An absorbing layer in front of the exit medium *)

(** The principal square root of a square, in the right half plane. *)
Lemma Csqrt_of_square (v : complex) : 0 < re v -> Csqrt (Cmul v v) = v.
Proof.
  destruct v as [a b]. cbn [re]. intros Ha.
  unfold Csqrt, Cabs, Cnorm. cbn [re im Cmul].
  replace ((a * a - b * b) * (a * a - b * b) + (a * b + b * a) * (a * b + b * a))
    with ((a * a + b * b) * (a * a + b * b)) by ring.
  rewrite sqrt_square by nra.
  replace ((a * a + b * b + (a * a - b * b)) / 2) with (a * a) by field.
  replace ((a * a + b * b - (a * a - b * b)) / 2) with (b * b) by field.
  rewrite sqrt_square by lra.
  destruct (Rle_dec 0 (a * b + b * a)) as [Hb | Hb].
  - rewrite sqrt_square by nra. f_equal. ring.
  - replace (b * b) with (- b * - b) by ring.
    rewrite sqrt_square by nra. f_equal. ring.
Qed.

Lemma Cnorm_Cdiv (z w : complex) :
  Cnorm w <> 0 -> Cnorm (Cdiv z w) = Cnorm z / Cnorm w.
Proof.
  unfold Cnorm. destruct z as [a b], w as [p q]. cbn [re im Cdiv].
  intros Hw. field. exact Hw.
Qed.

Lemma blend_half_pi (x y : complex) : spec_blend (PI / 2) x y = Cnorm y.
Proof.
  unfold spec_blend. rewrite cos_PI2, sin_PI2, !Cabs_sqr. unfold Rsqr. ring.
Qed.

Section AbsorbingLayer.

(** The hyperbolic cosine and sine of the imaginary part of the phase. *)
Let H := cosh (- (21 / 44 * PI)).
Let S := sinh (- (21 / 44 * PI)).

Lemma absorbing_layer_cosine :
  spec_cosine (RtoC (3 / 5)) (RtoC (25 / 16)) (refractiveIndex absorbing_layer)
  = mkC (231 / 377) (128 / 377).
Proof.
  unfold spec_cosine, absorbing_layer. cbn [refractiveIndex].
  replace (RsubC 1 _) with (Cmul (mkC (231 / 377) (128 / 377))
                                 (mkC (231 / 377) (128 / 377))).
  - apply Csqrt_of_square. cbn [re]. lra.
  - unfold Csquare. apply complex_eq; cbn [re im RsubC Cmul Cdiv RtoC]; field.
Qed.

Lemma absorbing_layer_phase :
  spec_phase (mkC (21 / 16) (11 / 32)) 4 (mkC (231 / 377) (128 / 377)) 11
  = mkC (- (PI / 2)) (- (21 / 44 * PI)).
Proof.
  unfold spec_phase.
  apply complex_eq; cbn [re im CdivR Cmul CmulR RmulC]; field.
Qed.

(** The matrix of the layer for the S polarization. *)
Lemma absorbing_layer_S :
  spec_layerS (RtoC (3 / 5)) 11 (RtoC (25 / 16)) absorbing_layer
  = mkMatrix22 (mkC 0 S)
               (mkC (- (672 / 925) * H) (- (704 / 925) * H))
               (mkC (21 / 32 * H) (- (11 / 16) * H))
               (mkC 0 S).
Proof.
  unfold spec_layerS. cbv zeta. rewrite absorbing_layer_cosine.
  unfold absorbing_layer. cbn [refractiveIndex thickness].
  rewrite absorbing_layer_phase.
  unfold spec_layer_matrix, spec_admittanceS, Ccos, Csin. cbn [re im].
  rewrite cos_neg, sin_neg, cos_PI2, sin_PI2. fold H S.
  apply matrix_eq; cbn [m11 m12 m21 m22];
    apply complex_eq; cbn [re im Cdiv Cmul onei]; field.
Qed.

Lemma absorbing_layer_products :
  snd (productMatrices (RtoC (3 / 5)) 11 (RtoC (25 / 16)) [absorbing_layer])
  = mkMatrix22 (mkC 0 S)
               (mkC (- (672 / 925) * H) (- (704 / 925) * H))
               (mkC (21 / 32 * H) (- (11 / 16) * H))
               (mkC 0 S).
Proof.
  rewrite productMatrices_spec by (cbn [length]; unfold INT_MAX; lia).
  cbn [snd]. unfold spec_stack. cbn [fold_left].
  rewrite product_formula_identity_l. apply absorbing_layer_S.
Qed.

(** The numerator [B - C / Y_inc] and the denominator [B + C / Y_inc] of
    the S reflection coefficient, with the exit cosine of the function and
    with the principal one. *)
Let N_code := mkC (- (2351 / 1850) * H - 4 / 5 * S) (3547 / 2775 * H + S).
Let D_code := mkC (239 / 1850 * H + 4 / 5 * S) (- (523 / 2775) * H + S).
Let N_principal := mkC (- (239 / 1850) * H + 4 / 5 * S) (523 / 2775 * H + S).
Let D_principal := mkC (2351 / 1850 * H - 4 / 5 * S) (- (3547 / 2775) * H + S).

Lemma absorbing_layer_rS :
  spec_rS (RtoC (3 / 5)) (RtoC (25 / 16)) (RtoC 1)
    (snd (productMatrices (RtoC (3 / 5)) 11 (RtoC (25 / 16)) [absorbing_layer]))
  = Cdiv N_code D_code.
Proof.
  rewrite absorbing_layer_products.
  unfold spec_rS, spec_admittanceS. cbv zeta.
  rewrite exit_cosine_glass_air.
  unfold spec_r. f_equal;
    apply complex_eq;
    cbn [re im spec_B spec_C Cdiv Csub Cadd Cmul RtoC m11 m12 m21 m22
         N_code D_code];
    field.
Qed.

Lemma absorbing_layer_principal_rS :
  principal_rS (RtoC (3 / 5)) (RtoC (25 / 16)) (RtoC 1)
    (snd (productMatrices (RtoC (3 / 5)) 11 (RtoC (25 / 16)) [absorbing_layer]))
  = Cdiv N_principal D_principal.
Proof.
  rewrite absorbing_layer_products.
  unfold principal_rS, spec_admittanceS. cbv zeta.
  rewrite spec_cosine_glass_air.
  unfold spec_r. f_equal;
    apply complex_eq;
    cbn [re im spec_B spec_C Cdiv Csub Cadd Cmul RtoC m11 m12 m21 m22
         N_principal D_principal];
    field.
Qed.

Lemma D_code_pos : 0 < Cnorm D_code.
Proof.
  pose proof (cosh2_sinh2 (- (21 / 44 * PI))) as HS. fold H S in HS.
  unfold Cnorm, D_code. cbn [re im]. nra.
Qed.

Lemma D_principal_pos : 0 < Cnorm D_principal.
Proof.
  pose proof (cosh2_sinh2 (- (21 / 44 * PI))) as HS. fold H S in HS.
  unfold Cnorm, D_principal. cbn [re im]. nra.
Qed.

(** The two squared moduli differ by
    [(135423904 / 12834375) cosh^2 / (|D_code|^2 |D_principal|^2)]. *)
Lemma absorbing_layer_gap :
  Cnorm N_principal / Cnorm D_principal < Cnorm N_code / Cnorm D_code.
Proof.
  pose proof D_code_pos as Hc. pose proof D_principal_pos as Hp.
  pose proof (cosh2_sinh2 (- (21 / 44 * PI))) as HS. fold H S in HS.
  assert (Hgap : Cnorm N_code * Cnorm D_principal
                 - Cnorm N_principal * Cnorm D_code
                 = 135423904 / 12834375 * (H * H) * (H * H - S * S)).
  { unfold Cnorm, N_code, D_code, N_principal, D_principal. cbn [re im]. field. }
  rewrite HS in Hgap.
  assert (HH : 0 < H * H) by nra.
  apply (Rmult_lt_reg_r (Cnorm D_principal * Cnorm D_code)).
  - now apply Rmult_lt_0_compat.
  - replace (Cnorm N_principal / Cnorm D_principal
             * (Cnorm D_principal * Cnorm D_code))
      with (Cnorm N_principal * Cnorm D_code) by (field; lra).
    replace (Cnorm N_code / Cnorm D_code * (Cnorm D_principal * Cnorm D_code))
      with (Cnorm N_code * Cnorm D_principal) by (field; lra).
    nra.
Qed.

(** The reflectance of the S polarization that the call stores, and the
    one of the formula with the principal square root. *)
Lemma absorbing_layer_reflectances :
  spec_blend (PI / 2)
    (principal_rP (RtoC (3 / 5)) (RtoC (25 / 16)) (RtoC 1)
       (fst (productMatrices (RtoC (3 / 5)) 11 (RtoC (25 / 16))
               [absorbing_layer])))
    (principal_rS (RtoC (3 / 5)) (RtoC (25 / 16)) (RtoC 1)
       (snd (productMatrices (RtoC (3 / 5)) 11 (RtoC (25 / 16))
               [absorbing_layer])))
  < cell (simulate (RtoC (3 / 5)) 11 (PI / 2) (RtoC (25 / 16)) (RtoC 1)
            [absorbing_layer] only_reflectance zeroed) Reflectance.
Proof.
  rewrite reflectance_cell by reflexivity.
  rewrite !blend_half_pi, absorbing_layer_rS, absorbing_layer_principal_rS.
  rewrite !Cnorm_Cdiv
    by (pose proof D_code_pos; pose proof D_principal_pos; lra).
  apply absorbing_layer_gap.
Qed.

End AbsorbingLayer.

(** C1 does not hold on the code beyond the critical angle of the exit
    medium.  The call is
    [simulate(0.6, 11, M_PI / 2, 1.5625, 1.0, {Layer{4, complex(1.3125, 0.34375)}}, &reflectance)]:
    S-polarized light from a medium of index [1.5625] at the incident cosine
    [0.6], one absorbing layer, exit medium of index 1.  The argument of the
    square root of the exit cosine is [1. - x] with [x = (1.5625, +0.0)],
    that is [(-0.5625, -0.0)]: the function takes the exit cosine
    [(0, -0.75)], where the principal square root of the claim is
    [(0, 0.75)].  The reflectance that the call stores, about [0.2828], is
    larger than the value of the formula of the claim on the same product
    matrices, about [0.1419]. *)
Theorem simulate_reflectance_evanescent :
  let c := RtoC (3 / 5) in
  let n_inc := RtoC (25 / 16) in
  let n_exit := RtoC 1 in
  let MP := fst (productMatrices c 11 n_inc [absorbing_layer]) in
  let MS := snd (productMatrices c 11 n_inc [absorbing_layer]) in
  let stored :=
    cell (simulate c 11 (PI / 2) n_inc n_exit [absorbing_layer]
            only_reflectance zeroed) Reflectance in
  let claimed :=
    spec_blend (PI / 2) (principal_rP c n_inc n_exit MP)
                        (principal_rS c n_inc n_exit MS) in
  exit_cosine c n_inc n_exit = mkC 0 (- (3 / 4))
  /\ spec_cosine c n_inc n_exit = mkC 0 (3 / 4)
  /\ claimed < stored.
Proof.
  intros c n_inc n_exit MP MS stored claimed.
  split; [apply exit_cosine_glass_air |].
  split; [apply spec_cosine_glass_air |].
  apply absorbing_layer_reflectances.
Qed.

(** * Further properties of the code *)

(** ** The loop, for a stack of any size *)

Lemma to_int_le (z : Z) : (0 <= z)%Z -> (to_int z <= z)%Z.
Proof.
  intros H. unfold to_int.
  pose proof (Z.mod_le (z + 2147483648) 4294967296) as Hmod. lia.
Qed.

Lemma loop_count_le (layers : list Layer) :
  (loop_count layers <= length layers)%nat.
Proof.
  unfold loop_count.
  pose proof (to_int_le (Z.of_nat (length layers)) (Nat2Z.is_nonneg _)). lia.
Qed.

Lemma loop_count_in_range (layers : list Layer) :
  (Z.of_nat (length layers) <= INT_MAX)%Z -> loop_count layers = length layers.
Proof.
  intros H. unfold loop_count. rewrite to_int_small by lia. apply Nat2Z.id.
Qed.

Lemma loop_count_wrapped (layers : list Layer) :
  (INT_MAX < Z.of_nat (length layers) < 4294967296)%Z -> loop_count layers = 0%nat.
Proof.
  unfold loop_count, to_int, INT_MAX. intros H.
  replace ((Z.of_nat (length layers) + 2147483648) mod 4294967296)%Z
    with (Z.of_nat (length layers) + 2147483648 - 4294967296)%Z.
  - lia.
  - symmetry. rewrite <- (Z.mod_add _ (-1) 4294967296) by lia.
    apply Z.mod_small. lia.
Qed.

(** A counted loop over the first indices of a list reads a prefix of it. *)
Lemma fold_seq_nth_prefix {A B : Type} (f : B -> A -> A) (d : B)
    (l pre post : list B) (a : A) :
  fold_left (fun a i => f (nth i (pre ++ l ++ post) d) a)
            (seq (length pre) (length l)) a
  = fold_left (fun a x => f x a) l a.
Proof.
  revert pre a. induction l as [| x l IH]; intros pre a; simpl.
  - reflexivity.
  - rewrite app_nth2, Nat.sub_diag by apply Nat.le_refl. simpl.
    specialize (IH (pre ++ [x]) (f x a)).
    rewrite <- app_assoc, length_app, Nat.add_1_r in IH. exact IH.
Qed.

Lemma for_loop_prefix {A : Type} (f : Layer -> A -> A) (layers : list Layer)
    (n : Z) (a : A) :
  (Z.to_nat n <= length layers)%nat ->
  for_loop n (fun i => f (at_index layers i)) a
  = fold_left (fun a layer => f layer a) (firstn (Z.to_nat n) layers) a.
Proof.
  intros Hk. unfold for_loop, at_index.
  rewrite <- (fold_seq_nth_prefix f (mkLayer 0 (RtoC 0))
                (firstn (Z.to_nat n) layers) [] (skipn (Z.to_nat n) layers) a).
  cbn [app length]. rewrite firstn_skipn, firstn_length_le by exact Hk.
  apply fold_left_pointwise. intros b i. now rewrite Nat2Z.id.
Qed.

(** The products that the loop leaves, whatever the size of the stack. *)
Lemma productMatrices_firstn (c : complex) (lambda : double) (n_inc : complex)
    (layers : list Layer) :
  productMatrices c lambda n_inc layers
  = (spec_stack (spec_layerP c lambda n_inc) (firstn (loop_count layers) layers),
     spec_stack (spec_layerS c lambda n_inc) (firstn (loop_count layers) layers)).
Proof.
  unfold productMatrices, spec_stack.
  rewrite (for_loop_prefix
             (fun layer '(prodP, prodS) =>
                let '(layerP, layerS) :=
                  layerMatrices c (Cmul c c) n_inc lambda layer in
                (Matrix22_mul_assign prodP layerP,
                 Matrix22_mul_assign prodS layerS)))
    by apply loop_count_le.
  fold (loop_count layers). rewrite <- fold_pair_stack.
  apply fold_left_pointwise. intros [prodP prodS] layer.
  now rewrite layerMatrices_spec, !Matrix22_mul_assign_formula.
Qed.

Lemma productMatrices_in_range (c : complex) (lambda : double) (n_inc : complex)
    (layers : list Layer) :
  (Z.of_nat (length layers) <= INT_MAX)%Z ->
  productMatrices c lambda n_inc layers
  = (spec_stack (spec_layerP c lambda n_inc) layers,
     spec_stack (spec_layerS c lambda n_inc) layers).
Proof.
  intros H. rewrite productMatrices_firstn, loop_count_in_range by exact H.
  now rewrite firstn_all.
Qed.

(** The whole call depends on the stack through the two products only. *)
Lemma simulate_same_products (c : complex) (lambda lambda' pol : double)
    (n_inc n_exit : complex) (layers layers' : list Layer)
    (out : request) (mem : output -> double) :
  productMatrices c lambda n_inc layers = productMatrices c lambda' n_inc layers' ->
  simulate c lambda pol n_inc n_exit layers out mem
  = simulate c lambda' pol n_inc n_exit layers' out mem.
Proof. intros H. now rewrite !simulate_refines, H. Qed.

(** X1.  For a stack of any size the loop multiplies the identity, on the
    right and in order, by the matrices of the first [loop_count] layers:
    all of them when the size fits in an [int], and a prefix otherwise. *)
Theorem productMatrices_any_size (incidentCosTheta : complex) (lambda : double)
    (nIncident : complex) (layers : list Layer) :
  productMatrices incidentCosTheta lambda nIncident layers
  = (spec_stack (spec_layerP incidentCosTheta lambda nIncident)
       (firstn (loop_count layers) layers),
     spec_stack (spec_layerS incidentCosTheta lambda nIncident)
       (firstn (loop_count layers) layers))
  /\ (loop_count layers <= length layers)%nat
  /\ ((Z.of_nat (length layers) <= INT_MAX)%Z ->
      firstn (loop_count layers) layers = layers).
Proof.
  split; [apply productMatrices_firstn | split; [apply loop_count_le |]].
  intros H. rewrite loop_count_in_range by exact H. apply firstn_all.
Qed.

Lemma productMatrices_any_size_witness :
  (Z.of_nat (length [halfwave; halfwave]) <= INT_MAX)%Z
  /\ firstn (loop_count [halfwave; halfwave]) [halfwave; halfwave]
     = [halfwave; halfwave].
Proof.
  assert (H : (Z.of_nat (length [halfwave; halfwave]) <= INT_MAX)%Z)
    by (simpl; unfold INT_MAX; lia).
  split; [exact H |].
  exact (proj2 (proj2 (productMatrices_any_size (RtoC 1) 2 (RtoC 1)
                         [halfwave; halfwave])) H).
Defined.

(** X2.  A stack of [2^31] to [2^32 - 1] layers is treated as no layer at
    all: [layersAmount] is negative, the loop does not run, and the call
    stores and prints what it does for the empty stack. *)
Theorem simulate_wrapped_size (incidentCosTheta : complex)
    (lambda polarization : double) (nIncident nExit : complex)
    (layers : list Layer) (out : request) (mem : output -> double) :
  (INT_MAX < Z.of_nat (length layers) < 4294967296)%Z ->
  simulate incidentCosTheta lambda polarization nIncident nExit layers out mem
  = simulate incidentCosTheta lambda polarization nIncident nExit [] out mem.
Proof.
  intros H. apply simulate_same_products.
  rewrite productMatrices_firstn, loop_count_wrapped by exact H.
  reflexivity.
Qed.

Lemma simulate_wrapped_size_witness :
  (INT_MAX < Z.of_nat (length long_stack) < 4294967296)%Z
  /\ simulate (RtoC 1) 2 0 (RtoC 1) (RtoC 1.5) long_stack all_outputs zeroed
     = simulate (RtoC 1) 2 0 (RtoC 1) (RtoC 1.5) [] all_outputs zeroed.
Proof.
  assert (H : (INT_MAX < Z.of_nat (length long_stack) < 4294967296)%Z)
    by (rewrite long_stack_length; unfold INT_MAX; lia).
  split; [exact H |].
  exact (simulate_wrapped_size (RtoC 1) 2 0 (RtoC 1) (RtoC 1.5) long_stack
           all_outputs zeroed H).
Defined.

(** ** Composition of stacks *)

Lemma stack_from (f : Layer -> Matrix22) (layers : list Layer) (M : Matrix22) :
  fold_left (fun A layer => product_formula A (f layer)) layers M
  = product_formula M (spec_stack f layers).
Proof.
  unfold spec_stack. revert M.
  induction layers as [| x l IH]; intros M; cbn [fold_left].
  - now rewrite product_formula_identity_r.
  - rewrite IH, (IH (product_formula identity (f x))).
    now rewrite product_formula_identity_l, product_formula_assoc.
Qed.

Lemma spec_stack_app (f : Layer -> Matrix22) (l1 l2 : list Layer) :
  spec_stack f (l1 ++ l2) = product_formula (spec_stack f l1) (spec_stack f l2).
Proof.
  unfold spec_stack at 1. rewrite fold_left_app. apply stack_from.
Qed.

Lemma length_app_le (l1 l2 : list Layer) :
  (Z.of_nat (length (l1 ++ l2)) <= INT_MAX)%Z ->
  (Z.of_nat (length l1) <= INT_MAX)%Z /\ (Z.of_nat (length l2) <= INT_MAX)%Z.
Proof. rewrite length_app. lia. Qed.

(** X3.  The product matrices of a stack made of two parts are the products
    [operator*] of the matrices of the first part by those of the second
    part, computed with the same incident medium, angle and wavelength. *)
Theorem productMatrices_app (incidentCosTheta : complex) (lambda : double)
    (nIncident : complex) (l1 l2 : list Layer) :
  (Z.of_nat (length (l1 ++ l2)) <= INT_MAX)%Z ->
  let M1 := productMatrices incidentCosTheta lambda nIncident l1 in
  let M2 := productMatrices incidentCosTheta lambda nIncident l2 in
  productMatrices incidentCosTheta lambda nIncident (l1 ++ l2)
  = (Matrix22_mul (fst M1) (fst M2), Matrix22_mul (snd M1) (snd M2)).
Proof.
  intros H M1 M2. subst M1 M2.
  destruct (length_app_le l1 l2 H) as [H1 H2].
  rewrite !productMatrices_in_range by assumption.
  cbn [fst snd]. unfold Matrix22_mul.
  now rewrite !Matrix22_mul_assign_formula, !spec_stack_app.
Qed.

Lemma productMatrices_app_witness :
  (Z.of_nat (length ([halfwave] ++ [mkLayer 3 (mkC 2 (-1))])) <= INT_MAX)%Z
  /\ productMatrices (RtoC 1) 2 (RtoC 1) ([halfwave] ++ [mkLayer 3 (mkC 2 (-1))])
     = (Matrix22_mul
          (fst (productMatrices (RtoC 1) 2 (RtoC 1) [halfwave]))
          (fst (productMatrices (RtoC 1) 2 (RtoC 1) [mkLayer 3 (mkC 2 (-1))])),
        Matrix22_mul
          (snd (productMatrices (RtoC 1) 2 (RtoC 1) [halfwave]))
          (snd (productMatrices (RtoC 1) 2 (RtoC 1) [mkLayer 3 (mkC 2 (-1))]))).
Proof.
  assert (H : (Z.of_nat (length ([halfwave] ++ [mkLayer 3 (mkC 2 (-1))]))
               <= INT_MAX)%Z)
    by (simpl; unfold INT_MAX; lia).
  split; [exact H |].
  exact (productMatrices_app (RtoC 1) 2 (RtoC 1) [halfwave]
           [mkLayer 3 (mkC 2 (-1))] H).
Defined.

(** ** The determinant *)

Lemma sin2_cos2_mul (a : R) : sin a * sin a + cos a * cos a = 1.
Proof. exact (sin2_cos2 a). Qed.

(** [cos^2 + sin^2 = 1] on complex numbers. *)
Lemma Ccos2_Csin2 (z : complex) :
  Cadd (Cmul (Ccos z) (Ccos z)) (Cmul (Csin z) (Csin z)) = RtoC 1.
Proof.
  destruct z as [a b]. apply complex_eq; cbn [re im Cadd Cmul Ccos Csin RtoC].
  - replace (cos a * cosh b * (cos a * cosh b)
             - - (sin a * sinh b) * - (sin a * sinh b)
             + (sin a * cosh b * (sin a * cosh b)
                - cos a * sinh b * (cos a * sinh b)))
      with ((sin a * sin a + cos a * cos a)
            * (cosh b * cosh b - sinh b * sinh b)) by ring.
    rewrite sin2_cos2_mul, cosh2_sinh2. ring.
  - ring.
Qed.

Lemma Cdiv_mul_cancel (u Y : complex) :
  Cnorm Y <> 0 -> Cmul (Cdiv u Y) (Cmul u Y) = Cmul u u.
Proof.
  unfold Cnorm. intros H. destruct u as [a b], Y as [c d].
  cbn [re im] in H.
  apply complex_eq; cbn [re im Cmul Cdiv]; field; exact H.
Qed.

Lemma det_layer (Y dlt : complex) :
  Cnorm Y <> 0 -> det (spec_layer_matrix Y dlt) = RtoC 1.
Proof.
  intros H. unfold det, spec_layer_matrix. cbn [m11 m12 m21 m22].
  rewrite (Cdiv_mul_cancel _ Y H).
  rewrite <- (Ccos2_Csin2 dlt). complex_ring.
Qed.

Lemma det_product (A B : Matrix22) :
  det (product_formula A B) = Cmul (det A) (det B).
Proof. unfold det, product_formula. cbn [m11 m12 m21 m22]. complex_ring. Qed.

Lemma det_stack (f : Layer -> Matrix22) (layers : list Layer) :
  Forall (fun layer => det (f layer) = RtoC 1) layers ->
  det (spec_stack f layers) = RtoC 1.
Proof.
  intros H. induction H as [| x l Hx _ IH].
  - unfold spec_stack, det. cbn [fold_left identity m11 m12 m21 m22].
    complex_ring.
  - change (x :: l) with ([x] ++ l). rewrite spec_stack_app, det_product, IH.
    unfold spec_stack. cbn [fold_left].
    rewrite product_formula_identity_l, Hx. complex_ring.
Qed.

Lemma Forall_firstn_layers (P : Layer -> Prop) (k : nat) (layers : list Layer) :
  Forall P layers -> Forall P (firstn k layers).
Proof.
  intros H. revert k. induction H as [| x l Hx _ IH]; intros [| k];
    cbn [firstn]; constructor; auto.
Qed.

(** X4.  When no layer of the stack has a zero admittance, the two product
    matrices that the loop leaves have determinant 1, whatever the size of
    the stack. *)
Theorem productMatrices_det (incidentCosTheta : complex) (lambda : double)
    (nIncident : complex) (layers : list Layer) :
  Forall (regular incidentCosTheta nIncident) layers ->
  det (fst (productMatrices incidentCosTheta lambda nIncident layers)) = RtoC 1
  /\ det (snd (productMatrices incidentCosTheta lambda nIncident layers))
     = RtoC 1.
Proof.
  intros H. rewrite productMatrices_firstn. cbn [fst snd].
  apply (Forall_firstn_layers _ (loop_count layers)) in H.
  split; apply det_stack; eapply Forall_impl; try exact H;
    intros layer [HP HS]; apply det_layer; assumption.
Qed.

Lemma halfwave_regular : regular (RtoC 1) (RtoC 1) halfwave.
Proof.
  unfold regular, spec_admittanceP, spec_admittanceS, halfwave.
  cbn [refractiveIndex]. rewrite spec_cosine_normal, Cdiv_one.
  unfold Cnorm. cbn [re im Cmul RtoC]. split; lra.
Qed.

Lemma productMatrices_det_witness :
  Forall (regular (RtoC 1) (RtoC 1)) [halfwave]
  /\ det (fst (productMatrices (RtoC 1) 2 (RtoC 1) [halfwave])) = RtoC 1.
Proof.
  assert (H : Forall (regular (RtoC 1) (RtoC 1)) [halfwave])
    by (constructor; [exact halfwave_regular | constructor]).
  split; [exact H |].
  exact (proj1 (productMatrices_det (RtoC 1) 2 (RtoC 1) [halfwave] H)).
Defined.

(** ** Layers that change nothing *)

Lemma Ccos_real (x : R) : Ccos (RtoC x) = RtoC (cos x).
Proof.
  unfold Ccos. cbn [re im RtoC]. rewrite cosh_0, sinh_0.
  apply complex_eq; cbn [re im RtoC]; ring.
Qed.

Lemma Csin_real (x : R) : Csin (RtoC x) = RtoC (sin x).
Proof.
  unfold Csin. cbn [re im RtoC]. rewrite cosh_0, sinh_0.
  apply complex_eq; cbn [re im RtoC]; ring.
Qed.

(** Without thickness the phase is zero and the matrix is the identity. *)
Lemma zero_thickness_matrix (Y n c : complex) (lambda : double) :
  spec_layer_matrix Y (spec_phase n 0 c lambda) = identity.
Proof.
  replace (spec_phase n 0 c lambda) with (RtoC 0)
    by (unfold spec_phase; complex_ring).
  unfold spec_layer_matrix. rewrite Ccos_real, Csin_real, cos_0, sin_0.
  apply matrix_eq; cbn [m11 m12 m21 m22 identity]; complex_ring.
Qed.

Lemma stack_skip (f : Layer -> Matrix22) (l1 l2 : list Layer) (x : Layer) :
  f x = identity -> spec_stack f (l1 ++ x :: l2) = spec_stack f (l1 ++ l2).
Proof.
  intros H. change (x :: l2) with ([x] ++ l2).
  rewrite !spec_stack_app. f_equal. f_equal.
  unfold spec_stack at 1. cbn [fold_left].
  now rewrite H, product_formula_identity_l, product_formula_identity_l.
Qed.

(** X5.  A layer of thickness zero with non-zero admittances can be put
    anywhere in a stack, or taken out of it, without any change in what the
    call stores and prints. *)
Theorem simulate_zero_thickness (incidentCosTheta : complex)
    (lambda polarization : double) (nIncident nExit : complex)
    (l1 l2 : list Layer) (layer : Layer)
    (out : request) (mem : output -> double) :
  (Z.of_nat (length (l1 ++ layer :: l2)) <= INT_MAX)%Z ->
  thickness layer = 0 ->
  regular incidentCosTheta nIncident layer ->
  simulate incidentCosTheta lambda polarization nIncident nExit
    (l1 ++ layer :: l2) out mem
  = simulate incidentCosTheta lambda polarization nIncident nExit
      (l1 ++ l2) out mem.
Proof.
  intros Hsize Hzero _. apply simulate_same_products.
  rewrite !productMatrices_in_range
    by (rewrite length_app in *; cbn [length] in *; lia).
  f_equal; apply stack_skip; unfold spec_layerP, spec_layerS;
    rewrite Hzero; apply zero_thickness_matrix.
Qed.

Lemma simulate_zero_thickness_witness :
  (Z.of_nat (length ([halfwave] ++ mkLayer 0 (RtoC 1) :: [halfwave]))
   <= INT_MAX)%Z
  /\ thickness (mkLayer 0 (RtoC 1)) = 0
  /\ regular (RtoC 1) (RtoC 1) (mkLayer 0 (RtoC 1))
  /\ simulate (RtoC 1) 2 0 (RtoC 1) (RtoC 1.5)
       ([halfwave] ++ mkLayer 0 (RtoC 1) :: [halfwave]) all_outputs zeroed
     = simulate (RtoC 1) 2 0 (RtoC 1) (RtoC 1.5)
         ([halfwave] ++ [halfwave]) all_outputs zeroed.
Proof.
  assert (H1 : (Z.of_nat (length ([halfwave] ++ mkLayer 0 (RtoC 1) :: [halfwave]))
                <= INT_MAX)%Z)
    by (simpl; unfold INT_MAX; lia).
  assert (H3 : regular (RtoC 1) (RtoC 1) (mkLayer 0 (RtoC 1)))
    by exact halfwave_regular.
  split; [exact H1 | split; [reflexivity | split; [exact H3 |]]].
  exact (simulate_zero_thickness (RtoC 1) 2 0 (RtoC 1) (RtoC 1.5)
           [halfwave] [halfwave] (mkLayer 0 (RtoC 1)) all_outputs zeroed
           H1 eq_refl H3).
Defined.

(** *** Half-wave layers at normal incidence *)

Lemma Cabs_neg (z : complex) : Cabs (Cneg z) = Cabs z.
Proof.
  unfold Cabs, Cnorm. f_equal. cbn [re im Cneg]. ring.
Qed.

Lemma spec_B_neg (M : Matrix22) (Y : complex) :
  spec_B (product_formula M minus_identity) Y = Cneg (spec_B M Y).
Proof.
  unfold spec_B, product_formula, minus_identity. cbn [m11 m12 m21 m22].
  complex_ring.
Qed.

Lemma spec_C_neg (M : Matrix22) (Y : complex) :
  spec_C (product_formula M minus_identity) Y = Cneg (spec_C M Y).
Proof.
  unfold spec_C, product_formula, minus_identity. cbn [m11 m12 m21 m22].
  complex_ring.
Qed.

Lemma spec_r_neg (B C Y : complex) : spec_r (Cneg B) (Cneg C) Y = spec_r B C Y.
Proof.
  unfold spec_r. rewrite <- (Cdiv_neg_neg (Csub B (Cdiv C Y))). f_equal;
    complex_ring.
Qed.

Lemma spec_t_neg (B C Y : complex) :
  spec_t (Cneg B) (Cneg C) Y = Cneg (spec_t B C Y).
Proof.
  unfold spec_t, RdivC. rewrite <- Cdiv_neg_r. f_equal. complex_ring.
Qed.

(** Changing the sign of the two products changes nothing in a call. *)
Lemma spec_simulate_neg (c : complex) (pol : double) (n_inc n_exit : complex)
    (MP MS : Matrix22) (out : request) (mem : output -> double) :
  spec_simulate c pol n_inc n_exit (product_formula MP minus_identity)
    (product_formula MS minus_identity) out mem
  = spec_simulate c pol n_inc n_exit MP MS out mem.
Proof.
  assert (HrP : spec_rP c n_inc n_exit (product_formula MP minus_identity)
                = spec_rP c n_inc n_exit MP)
    by (unfold spec_rP; rewrite spec_B_neg, spec_C_neg; apply spec_r_neg).
  assert (HrS : spec_rS c n_inc n_exit (product_formula MS minus_identity)
                = spec_rS c n_inc n_exit MS)
    by (unfold spec_rS; rewrite spec_B_neg, spec_C_neg; apply spec_r_neg).
  assert (HtP : Cabs (spec_tP c n_inc n_exit (product_formula MP minus_identity))
                = Cabs (spec_tP c n_inc n_exit MP)).
  { unfold spec_tP. rewrite spec_B_neg, spec_C_neg, spec_t_neg.
    rewrite <- (Cabs_neg (Cmul (spec_t _ _ _) _)). f_equal. complex_ring. }
  assert (HtS : Cabs (spec_tS c n_inc n_exit (product_formula MS minus_identity))
                = Cabs (spec_tS c n_inc n_exit MS))
    by (unfold spec_tS; rewrite spec_B_neg, spec_C_neg, spec_t_neg;
        apply Cabs_neg).
  unfold spec_simulate, spec_blend. now rewrite HrP, HrS, HtP, HtS.
Qed.

Lemma minus_identity_commutes (M L : Matrix22) :
  product_formula (product_formula M minus_identity) L
  = product_formula (product_formula M L) minus_identity.
Proof.
  unfold product_formula, minus_identity. apply matrix_eq;
    cbn [m11 m12 m21 m22]; complex_ring.
Qed.

Lemma stack_sign (f : Layer -> Matrix22) (l1 l2 : list Layer) (x : Layer) :
  f x = minus_identity ->
  spec_stack f (l1 ++ x :: l2)
  = product_formula (spec_stack f (l1 ++ l2)) minus_identity.
Proof.
  intros H. change (x :: l2) with ([x] ++ l2). rewrite !spec_stack_app.
  unfold spec_stack at 2. cbn [fold_left].
  rewrite H, product_formula_identity_l.
  rewrite <- !product_formula_assoc.
  rewrite <- minus_identity_commutes. reflexivity.
Qed.

(** The matrix of a layer of real index [n1] and thickness
    [lambda / (2 n1)], at normal incidence. *)
Lemma halfwave_matrix (n1 lambda : double) (Y : complex) :
  n1 <> 0 -> lambda <> 0 -> Cnorm Y <> 0 ->
  spec_layer_matrix Y
    (spec_phase (RtoC n1) (lambda / (2 * n1)) (RtoC 1) lambda)
  = minus_identity.
Proof.
  intros Hn Hl HY.
  replace (spec_phase (RtoC n1) (lambda / (2 * n1)) (RtoC 1) lambda)
    with (RtoC (- PI))
    by (unfold spec_phase; apply complex_eq;
        cbn [re im CdivR Cmul CmulR RmulC RtoC]; field; split; assumption).
  unfold spec_layer_matrix.
  rewrite Ccos_real, Csin_real, cos_neg, sin_neg, cos_PI, sin_PI.
  unfold Cnorm in HY. destruct Y as [c d]. cbn [re im] in HY.
  apply matrix_eq; cbn [m11 m12 m21 m22 minus_identity];
    apply complex_eq; cbn [re im Cdiv Cmul onei RtoC]; field; exact HY.
Qed.

(** X6.  At normal incidence a layer of real index [n1] and thickness
    [lambda / (2 n1)] can be put anywhere in a stack, or taken out of it,
    without any change in what the call stores and prints: its matrix is
    minus the identity, and the sign of the products does not matter. *)
Theorem simulate_halfwave (lambda polarization : double)
    (nIncident nExit : complex) (l1 l2 : list Layer) (n1 : double)
    (out : request) (mem : output -> double) :
  (Z.of_nat (length (l1 ++ mkLayer (lambda / (2 * n1)) (RtoC n1) :: l2))
   <= INT_MAX)%Z ->
  n1 <> 0 -> lambda <> 0 ->
  simulate (RtoC 1) lambda polarization nIncident nExit
    (l1 ++ mkLayer (lambda / (2 * n1)) (RtoC n1) :: l2) out mem
  = simulate (RtoC 1) lambda polarization nIncident nExit (l1 ++ l2) out mem.
Proof.
  intros Hsize Hn Hl. rewrite !simulate_refines.
  assert (HY : Cnorm (RtoC n1) <> 0)
    by (unfold Cnorm; cbn [re im RtoC]; nra).
  rewrite !productMatrices_in_range
    by (rewrite length_app in *; cbn [length] in *; lia).
  cbn [fst snd].
  rewrite !(stack_sign _ l1 l2).
  - apply spec_simulate_neg.
  - unfold spec_layerS, spec_admittanceS. cbn [refractiveIndex thickness].
    rewrite spec_cosine_normal, Cmul_1_r. now apply halfwave_matrix.
  - unfold spec_layerP, spec_admittanceP. cbn [refractiveIndex thickness].
    rewrite spec_cosine_normal, Cdiv_one. now apply halfwave_matrix.
Qed.

Lemma simulate_halfwave_witness :
  (Z.of_nat (length ([mkLayer 3 (mkC 2 (-1))]
                     ++ mkLayer (2 / (2 * 1)) (RtoC 1) :: []))
   <= INT_MAX)%Z
  /\ 1 <> 0 /\ 2 <> 0
  /\ simulate (RtoC 1) 2 0 (RtoC 1) (RtoC 1.5)
       ([mkLayer 3 (mkC 2 (-1))] ++ mkLayer (2 / (2 * 1)) (RtoC 1) :: [])
       all_outputs zeroed
     = simulate (RtoC 1) 2 0 (RtoC 1) (RtoC 1.5)
         ([mkLayer 3 (mkC 2 (-1))] ++ []) all_outputs zeroed.
Proof.
  assert (H1 : (Z.of_nat (length ([mkLayer 3 (mkC 2 (-1))]
                                  ++ mkLayer (2 / (2 * 1)) (RtoC 1) :: []))
                <= INT_MAX)%Z)
    by (simpl; unfold INT_MAX; lia).
  assert (H2 : 1 <> 0) by lra.
  assert (H3 : 2 <> 0) by lra.
  split; [exact H1 | split; [exact H2 | split; [exact H3 |]]].
  exact (simulate_halfwave 2 0 (RtoC 1) (RtoC 1.5) [mkLayer 3 (mkC 2 (-1))] []
           1 all_outputs zeroed H1 H2 H3).
Defined.

(** ** The unit of length *)

Lemma CdivR_scale (k lambda : double) (W : complex) :
  k <> 0 -> CdivR (RmulC k W) (k * lambda) = CdivR W lambda.
Proof.
  intros Hk. destruct W as [a b].
  apply complex_eq; cbn [re im CdivR RmulC]; unfold Rdiv;
    rewrite Rinv_mult.
  - replace (k * a * (/ k * / lambda)) with (k * / k * (a * / lambda)) by ring.
    rewrite Rinv_r by exact Hk. ring.
  - replace (k * b * (/ k * / lambda)) with (k * / k * (b * / lambda)) by ring.
    rewrite Rinv_r by exact Hk. ring.
Qed.

Lemma spec_phase_scale (k : double) (n : complex) (d : double) (c : complex)
    (lambda : double) :
  k <> 0 -> spec_phase n (k * d) c (k * lambda) = spec_phase n d c lambda.
Proof.
  intros Hk. unfold spec_phase.
  rewrite <- (CdivR_scale k lambda _ Hk). f_equal. complex_ring.
Qed.

Lemma fold_left_map_layers {A : Type} (h : A -> Layer -> A) (g : Layer -> Layer)
    (l : list Layer) (a : A) :
  fold_left h (map g l) a = fold_left (fun a x => h a (g x)) l a.
Proof.
  revert a. induction l as [| x l IH]; intros a; cbn [map fold_left].
  - reflexivity.
  - apply IH.
Qed.

(** X7.  Thicknesses and wavelength are in the same unit, whatever it is:
    multiplying the wavelength and the thickness of every layer by the same
    non-zero factor changes nothing in what the call stores and prints. *)
Theorem simulate_unit (k : double) (incidentCosTheta : complex)
    (lambda polarization : double) (nIncident nExit : complex)
    (layers : list Layer) (out : request) (mem : output -> double) :
  k <> 0 ->
  simulate incidentCosTheta (k * lambda) polarization nIncident nExit
    (map (scale_layer k) layers) out mem
  = simulate incidentCosTheta lambda polarization nIncident nExit
      layers out mem.
Proof.
  intros Hk. apply simulate_same_products.
  rewrite !productMatrices_firstn.
  unfold loop_count. rewrite length_map, firstn_map.
  unfold spec_stack. rewrite !fold_left_map_layers.
  f_equal; apply fold_left_pointwise; intros M layer;
    unfold spec_layerP, spec_layerS, scale_layer;
    cbn [refractiveIndex thickness];
    now rewrite spec_phase_scale.
Qed.

Lemma simulate_unit_witness :
  1000 <> 0
  /\ simulate (RtoC 1) (1000 * 0.5) 0 (RtoC 1) (RtoC 1.5)
       (map (scale_layer 1000) [mkLayer 0.1 (mkC 2 (-1))]) all_outputs zeroed
     = simulate (RtoC 1) 0.5 0 (RtoC 1) (RtoC 1.5)
         [mkLayer 0.1 (mkC 2 (-1))] all_outputs zeroed.
Proof.
  assert (H : 1000 <> 0) by lra.
  split; [exact H |].
  exact (simulate_unit 1000 (RtoC 1) 0.5 0 (RtoC 1) (RtoC 1.5)
           [mkLayer 0.1 (mkC 2 (-1))] all_outputs zeroed H).
Defined.

(** ** Normal incidence *)

(** At normal incidence the two polarization bases have the same matrices,
    reflection and transmission coefficients. *)
Lemma normal_layers (lambda : double) (n_inc : complex) (layer : Layer) :
  spec_layerS (RtoC 1) lambda n_inc layer = spec_layerP (RtoC 1) lambda n_inc layer.
Proof.
  unfold spec_layerS, spec_layerP, spec_admittanceS, spec_admittanceP.
  now rewrite spec_cosine_normal, Cmul_1_r, Cdiv_one.
Qed.

Lemma normal_products (lambda : double) (n_inc : complex) (layers : list Layer) :
  snd (productMatrices (RtoC 1) lambda n_inc layers)
  = fst (productMatrices (RtoC 1) lambda n_inc layers).
Proof.
  rewrite productMatrices_firstn. cbn [fst snd]. unfold spec_stack.
  apply fold_left_pointwise. intros M layer. now rewrite normal_layers.
Qed.

Lemma normal_rS (n_inc n_exit : complex) (M : Matrix22) :
  spec_rS (RtoC 1) n_inc n_exit M = spec_rP (RtoC 1) n_inc n_exit M.
Proof.
  unfold spec_rS, spec_rP, spec_admittanceS, spec_admittanceP.
  now rewrite exit_cosine_normal, !Cmul_1_r, !Cdiv_one.
Qed.

Lemma normal_tP (n_inc n_exit : complex) (M : Matrix22) :
  spec_tP (RtoC 1) n_inc n_exit M = spec_tS (RtoC 1) n_inc n_exit M.
Proof.
  unfold spec_tS, spec_tP, spec_admittanceS, spec_admittanceP.
  now rewrite exit_cosine_normal, !Cmul_1_r, !Cdiv_one, Cmul_1_r.
Qed.

Lemma blend_same (pol : double) (x : complex) : spec_blend pol x x = (Cabs x)².
Proof.
  unfold spec_blend. pose proof (sin2_cos2 pol) as H.
  replace ((cos pol)² * (Cabs x)² + (sin pol)² * (Cabs x)²)
    with (((sin pol)² + (cos pol)²) * (Cabs x)²) by ring.
  rewrite H. ring.
Qed.

(** The state after a call at normal incidence, written without the
    polarization angle. *)
Lemma simulate_normal (lambda pol : double) (n_inc n_exit : complex)
    (layers : list Layer) (out : request) (mem : output -> double) :
  simulate (RtoC 1) lambda pol n_inc n_exit layers out mem
  = spec_simulate (RtoC 1) 0 n_inc n_exit
      (fst (productMatrices (RtoC 1) lambda n_inc layers))
      (fst (productMatrices (RtoC 1) lambda n_inc layers)) out mem.
Proof.
  rewrite simulate_refines, normal_products. unfold spec_simulate.
  now rewrite !normal_rS, !normal_tP, !blend_same.
Qed.

(** X8.  At normal incidence ([incidentCosTheta = 1]) the polarization
    angle has no effect: for every stack and every request, two calls that
    differ in the polarization angle only store and print the same. *)
Theorem simulate_normal_polarization (lambda pol pol' : double)
    (nIncident nExit : complex) (layers : list Layer)
    (out : request) (mem : output -> double) :
  simulate (RtoC 1) lambda pol nIncident nExit layers out mem
  = simulate (RtoC 1) lambda pol' nIncident nExit layers out mem.
Proof. now rewrite !simulate_normal. Qed.

Lemma atan2_same (x : R) : 0 < x -> atan2 x x = PI / 4.
Proof.
  intros H. unfold atan2. destruct (Rlt_dec 0 x) as [_ | Hn]; [| lra].
  replace (x / x) with 1 by (field; lra). apply atan_1.
Qed.

Lemma atan2_zero : atan2 0 0 = 0.
Proof.
  unfold atan2. repeat destruct (Rlt_dec _ _); try lra; reflexivity.
Qed.

Lemma Cabs_nonneg (z : complex) : 0 <= Cabs z.
Proof. apply sqrt_pos. Qed.

(** X9.  At normal incidence, when psi and delta are requested, [delta] is
    stored as 0, and [psi] as [PI / 4] when the stack reflects and as 0 when
    its reflection coefficient is zero. *)
Theorem simulate_normal_psi_delta (lambda pol : double)
    (nIncident nExit : complex) (layers : list Layer)
    (r t a : bool) (mem : output -> double) :
  let st := simulate (RtoC 1) lambda pol nIncident nExit layers
              (mkRequest r t a true true) mem in
  let rP := spec_rP (RtoC 1) nIncident nExit
              (fst (productMatrices (RtoC 1) lambda nIncident layers)) in
  cell st Delta = 0
  /\ (Cabs rP <> 0 -> cell st Psi = PI / 4)
  /\ (Cabs rP = 0 -> cell st Psi = 0).
Proof.
  intros st rP. subst st rP. rewrite simulate_normal. unfold spec_simulate.
  rewrite normal_rS.
  set (x := spec_rP (RtoC 1) nIncident nExit
              (fst (productMatrices (RtoC 1) lambda nIncident layers))).
  destruct r, t, a; try destruct (Req_dec_T (im nIncident) 0);
    cbn [andb store_to fprintf_stderr load cell events app output_eqb
         reflectance transmittance absorptance psi delta];
    (split; [ring | split; intros H;
                    [apply atan2_same; pose proof (Cabs_nonneg x); lra
                    | rewrite H; apply atan2_zero]]).
Qed.

Lemma simulate_normal_psi_delta_witness :
  Cabs (spec_rP (RtoC 1) (RtoC 1) (RtoC 1.5)
          (fst (productMatrices (RtoC 1) 500 (RtoC 1) []))) <> 0
  /\ cell (simulate (RtoC 1) 500 0 (RtoC 1) (RtoC 1.5) []
             (mkRequest false false false true true) zeroed) Psi
     = PI / 4.
Proof.
  assert (H : Cabs (spec_rP (RtoC 1) (RtoC 1) (RtoC 1.5)
                      (fst (productMatrices (RtoC 1) 500 (RtoC 1) []))) <> 0).
  { rewrite productMatrices_nil. cbn [fst]. rewrite bare_rP.
    intros H0. pose proof Cabs_sqr_fifth as H5. rewrite H0 in H5.
    unfold Rsqr in H5. lra. }
  split; [exact H |].
  exact (proj1 (proj2 (simulate_normal_psi_delta 500 0 (RtoC 1) (RtoC 1.5) []
                         false false false zeroed)) H).
Defined.

(** ** Stacks with a closed form *)

Lemma Cabs_sqr_real (x : R) : (Cabs (RtoC x))² = x * x.
Proof. rewrite Cabs_sqr. unfold Cnorm. cbn [re im RtoC]. ring. Qed.

Lemma Cdiv_zero_l (w : complex) : Cdiv (RtoC 0) w = RtoC 0.
Proof. complex_ring. Qed.

Lemma Cdiv_self (z : complex) : Cnorm z <> 0 -> Cdiv z z = RtoC 1.
Proof.
  unfold Cnorm. intros H. destruct z as [a b]. cbn [re im] in H.
  apply complex_eq; cbn [re im Cdiv RtoC]; field; exact H.
Qed.

(** The state after a call at normal incidence on a stack whose product
    matrix is [M], from the reflection and transmission coefficients. *)
Lemma simulate_normal_cells (lambda pol : double) (n_inc n_exit : complex)
    (layers : list Layer) (out : request) (mem : output -> double) (r t : complex) :
  spec_rP (RtoC 1) n_inc n_exit
    (fst (productMatrices (RtoC 1) lambda n_inc layers)) = r ->
  spec_tS (RtoC 1) n_inc n_exit
    (fst (productMatrices (RtoC 1) lambda n_inc layers)) = t ->
  let st := simulate (RtoC 1) lambda pol n_inc n_exit layers out mem in
  (reflectance out = true -> cell st Reflectance = (Cabs r)²)
  /\ (reflectance out = true -> transmittance out = true ->
      cell st Transmittance = (Cabs t)²)
  /\ (reflectance out = true -> transmittance out = true ->
      absorptance out = true ->
      cell st Absorptance = 1 - (Cabs r)² - (Cabs t)²).
Proof.
  intros Hr Ht st. subst st. rewrite simulate_normal. unfold spec_simulate.
  rewrite normal_rS, normal_tP, !blend_same, Hr, Ht.
  destruct out as [fr ft fa fp fd];
    cbn [reflectance transmittance absorptance psi delta].
  destruct fr, ft, fa, fp, fd; try destruct (Req_dec_T (im n_inc) 0);
    cbn [andb store_to fprintf_stderr load cell events app output_eqb];
    repeat split; intros; try discriminate; reflexivity.
Qed.

(** *** The bare interface between two real media *)

Lemma fresnel_r (n0 n1 : double) :
  0 < n0 -> 0 < n1 ->
  spec_rP (RtoC 1) (RtoC n0) (RtoC n1) identity
  = RtoC ((n0 - n1) / (n0 + n1)).
Proof.
  intros H0 H1. unfold spec_rP, spec_admittanceP.
  rewrite exit_cosine_normal, !Cdiv_one.
  apply complex_eq;
    cbn [re im spec_r spec_B spec_C Cdiv Csub Cadd Cmul RtoC identity
         m11 m12 m21 m22];
    field; nra.
Qed.

Lemma fresnel_t (n0 n1 : double) :
  0 < n0 -> 0 < n1 ->
  spec_tS (RtoC 1) (RtoC n0) (RtoC n1) identity
  = RtoC (2 * n0 / (n0 + n1)).
Proof.
  intros H0 H1. unfold spec_tS, spec_admittanceS.
  rewrite exit_cosine_normal, !Cmul_1_r.
  apply complex_eq;
    cbn [re im spec_t RdivC spec_B spec_C Cdiv Csub Cadd Cmul RtoC identity
         m11 m12 m21 m22];
    field; nra.
Qed.

(** X10.  With no layer, normal incidence and two real positive indices
    [n0] (incident) and [n1] (exit), the call stores the Fresnel reflectance
    [((n0 - n1) / (n0 + n1))^2] for every polarization angle, and the
    transmittance [(2 n0 / (n0 + n1))^2], the squared modulus of the
    transmission coefficient. *)
Theorem simulate_fresnel (n0 n1 lambda pol : double)
    (out : request) (mem : output -> double) :
  0 < n0 -> 0 < n1 ->
  let st := simulate (RtoC 1) lambda pol (RtoC n0) (RtoC n1) [] out mem in
  (reflectance out = true ->
   cell st Reflectance = ((n0 - n1) / (n0 + n1))²)
  /\ (reflectance out = true -> transmittance out = true ->
      cell st Transmittance = (2 * n0 / (n0 + n1))²).
Proof.
  intros H0 H1 st. subst st.
  destruct (simulate_normal_cells lambda pol (RtoC n0) (RtoC n1) [] out mem
              (RtoC ((n0 - n1) / (n0 + n1))) (RtoC (2 * n0 / (n0 + n1))))
    as (HR & HT & _).
  - rewrite productMatrices_nil. now apply fresnel_r.
  - rewrite productMatrices_nil. now apply fresnel_t.
  - rewrite !Cabs_sqr_real in *. unfold Rsqr. split; assumption.
Qed.

Lemma simulate_fresnel_witness :
  0 < 1 /\ 0 < 3
  /\ reflectance all_outputs = true
  /\ cell (simulate (RtoC 1) 500 0 (RtoC 1) (RtoC 3) [] all_outputs zeroed)
          Reflectance
     = ((1 - 3) / (1 + 3))².
Proof.
  assert (H0 : 0 < 1) by lra.
  assert (H1 : 0 < 3) by lra.
  split; [exact H0 | split; [exact H1 | split; [reflexivity |]]].
  exact (proj1 (simulate_fresnel 1 3 500 0 all_outputs zeroed H0 H1) eq_refl).
Defined.

(** X11.  The three outputs do not balance for a lossless interface: with
    no layer, normal incidence and real positive indices, the absorptance
    stored is [4 n0 (n1 - n0) / (n0 + n1)^2].  It is zero only when the two
    media have the same index, and it is negative when light goes to the
    medium of lower index. *)
Theorem simulate_fresnel_absorptance (n0 n1 lambda pol : double)
    (out : request) (mem : output -> double) :
  0 < n0 -> 0 < n1 ->
  reflectance out = true -> transmittance out = true ->
  absorptance out = true ->
  let st := simulate (RtoC 1) lambda pol (RtoC n0) (RtoC n1) [] out mem in
  cell st Absorptance = 4 * n0 * (n1 - n0) / ((n0 + n1) * (n0 + n1))
  /\ (cell st Absorptance = 0 <-> n0 = n1)
  /\ (n1 < n0 -> cell st Absorptance < 0).
Proof.
  intros H0 H1 Hr Ht Ha st. subst st.
  destruct (simulate_normal_cells lambda pol (RtoC n0) (RtoC n1) [] out mem
              (RtoC ((n0 - n1) / (n0 + n1))) (RtoC (2 * n0 / (n0 + n1))))
    as (_ & _ & HA).
  - rewrite productMatrices_nil. now apply fresnel_r.
  - rewrite productMatrices_nil. now apply fresnel_t.
  - rewrite (HA Hr Ht Ha), !Cabs_sqr_real.
    assert (Hs : 0 < (n0 + n1) * (n0 + n1)) by nra.
    assert (Hval : 1 - (n0 - n1) / (n0 + n1) * ((n0 - n1) / (n0 + n1))
                   - 2 * n0 / (n0 + n1) * (2 * n0 / (n0 + n1))
                   = 4 * n0 * (n1 - n0) / ((n0 + n1) * (n0 + n1)))
      by (field; lra).
    rewrite Hval. split; [reflexivity | split].
    + split.
      * intros Hz. apply (Rmult_eq_compat_r ((n0 + n1) * (n0 + n1))) in Hz.
        unfold Rdiv in Hz. rewrite Rmult_assoc, Rinv_l, Rmult_0_l in Hz by lra.
        nra.
      * intros ->. unfold Rdiv. ring.
    + intros Hlt. apply Rmult_lt_reg_r with ((n0 + n1) * (n0 + n1)).
      * exact Hs.
      * unfold Rdiv. rewrite Rmult_assoc, Rinv_l, Rmult_0_l by lra. nra.
Qed.

Lemma simulate_fresnel_absorptance_witness :
  0 < 1.5 /\ 0 < 1 /\ 1 < 1.5
  /\ cell (simulate (RtoC 1) 500 0 (RtoC 1.5) (RtoC 1) [] all_outputs zeroed)
          Absorptance < 0.
Proof.
  assert (H0 : 0 < 1.5) by lra.
  assert (H1 : 0 < 1) by lra.
  assert (H2 : 1 < 1.5) by lra.
  split; [exact H0 | split; [exact H1 | split; [exact H2 |]]].
  exact (proj2 (proj2 (simulate_fresnel_absorptance 1.5 1 500 0 all_outputs
                         zeroed H0 H1 eq_refl eq_refl eq_refl)) H2).
Defined.

(** *** Matched media *)

Lemma spec_cosine_matched (c : double) (n : complex) :
  0 < c -> Cnorm n <> 0 -> spec_cosine (RtoC c) n n = RtoC c.
Proof.
  intros Hc Hn. unfold spec_cosine, Csquare. rewrite (Cdiv_self n Hn).
  rewrite (Csqrt_real_nonneg _ (c * c)).
  - rewrite sqrt_square by lra. reflexivity.
  - cbn [re im RsubC Cmul RtoC]. ring.
  - cbn [re im RsubC Cmul RtoC]. ring.
  - nra.
Qed.

(** In matched media the argument of the square root is the square of the
    incident cosine, away from the cut. *)
Lemma exit_cosine_matched (c : double) (n : complex) :
  0 < c -> Cnorm n <> 0 -> exit_cosine (RtoC c) n n = RtoC c.
Proof.
  intros Hc Hn. unfold exit_cosine. rewrite Csqrt_signed_off_cut.
  - now apply spec_cosine_matched.
  - left. unfold Csquare. rewrite (Cdiv_self n Hn).
    cbn [re im RsubC Cmul RtoC]. nra.
Qed.

Lemma Cnorm_admittanceP (c : double) (n : complex) :
  0 < c -> Cnorm n <> 0 -> Cnorm (Cdiv n (RtoC c)) <> 0.
Proof.
  unfold Cnorm. destruct n as [a b]. cbn [re im Cdiv RtoC].
  intros Hc Hn H. apply Hn.
  replace (a * a + b * b)
    with (((a * c + b * 0) / (c * c + 0 * 0) * ((a * c + b * 0) / (c * c + 0 * 0))
           + (b * c - a * 0) / (c * c + 0 * 0) * ((b * c - a * 0) / (c * c + 0 * 0)))
          * (c * c))
    by (field; lra).
  rewrite H. ring.
Qed.

Lemma Cnorm_admittanceS (c : double) (n : complex) :
  0 < c -> Cnorm n <> 0 -> Cnorm (Cmul n (RtoC c)) <> 0.
Proof.
  unfold Cnorm. destruct n as [a b]. cbn [re im Cmul RtoC].
  intros Hc Hn H. apply Hn.
  assert (Hcc : 0 < c * c) by nra.
  apply (Rmult_eq_reg_r (c * c)); [| lra]. rewrite Rmult_0_l, <- H. ring.
Qed.

Lemma matched_r (Y : complex) :
  Cnorm Y <> 0 -> spec_r (spec_B identity Y) (spec_C identity Y) Y = RtoC 0.
Proof.
  intros HY. unfold spec_r, spec_B, spec_C. cbn [identity m11 m12 m21 m22].
  replace (Cadd (RtoC 0) (Cmul (RtoC 1) Y)) with Y by complex_ring.
  rewrite (Cdiv_self Y HY).
  apply complex_eq; cbn [re im Cdiv Csub Cadd Cmul RtoC]; field;
    destruct Y as [a b]; cbn [re im]; nra.
Qed.

Lemma matched_t (Y : complex) :
  Cnorm Y <> 0 -> spec_t (spec_B identity Y) (spec_C identity Y) Y = RtoC 1.
Proof.
  intros HY. unfold spec_t, RdivC, spec_B, spec_C. cbn [identity m11 m12 m21 m22].
  replace (Cadd (RtoC 0) (Cmul (RtoC 1) Y)) with Y by complex_ring.
  rewrite (Cdiv_self Y HY).
  apply complex_eq; cbn [re im Cdiv Csub Cadd Cmul RtoC]; field;
    destruct Y as [a b]; cbn [re im]; nra.
Qed.

Lemma Cabs_zero : Cabs (RtoC 0) = 0.
Proof.
  unfold Cabs, Cnorm. cbn [re im RtoC].
  replace (0 * 0 + 0 * 0) with 0 by ring. apply sqrt_0.
Qed.

Lemma Cabs_one : Cabs (RtoC 1) = 1.
Proof.
  unfold Cabs, Cnorm. cbn [re im RtoC].
  replace (1 * 1 + 0 * 0) with 1 by ring. apply sqrt_1.
Qed.

(** X12.  With no layer and the same non-zero index on both sides, at a
    real incidence with positive cosine, nothing is reflected: the call
    stores reflectance 0, transmittance 1 and absorptance 0, for every
    polarization angle. *)
Theorem simulate_matched (c lambda pol : double) (n : complex)
    (out : request) (mem : output -> double) :
  0 < c -> Cnorm n <> 0 ->
  let st := simulate (RtoC c) lambda pol n n [] out mem in
  (reflectance out = true -> cell st Reflectance = 0)
  /\ (reflectance out = true -> transmittance out = true ->
      cell st Transmittance = 1)
  /\ (reflectance out = true -> transmittance out = true ->
      absorptance out = true -> cell st Absorptance = 0).
Proof.
  intros Hc Hn st. subst st.
  rewrite simulate_refines, productMatrices_nil. cbn [fst snd].
  unfold spec_simulate, spec_rP, spec_rS, spec_tP, spec_tS,
    spec_admittanceP, spec_admittanceS.
  rewrite (exit_cosine_matched c n Hc Hn).
  rewrite (matched_r _ (Cnorm_admittanceP c n Hc Hn)),
    (matched_r _ (Cnorm_admittanceS c n Hc Hn)),
    (matched_t _ (Cnorm_admittanceP c n Hc Hn)),
    (matched_t _ (Cnorm_admittanceS c n Hc Hn)).
  rewrite (Cdiv_self (RtoC c))
    by (unfold Cnorm; cbn [re im RtoC]; nra).
  rewrite Cmul_1_r, !blend_same, Cabs_zero, Cabs_one.
  destruct out as [fr ft fa fp fd];
    cbn [reflectance transmittance absorptance psi delta].
  destruct fr, ft, fa, fp, fd; try destruct (Req_dec_T (im n) 0);
    cbn [andb store_to fprintf_stderr load cell events app output_eqb];
    repeat split; intros; try discriminate; unfold Rsqr; ring.
Qed.

Lemma simulate_matched_witness :
  0 < 0.5 /\ Cnorm (mkC 1.5 (-0.1)) <> 0
  /\ reflectance all_outputs = true /\ transmittance all_outputs = true
  /\ cell (simulate (RtoC 0.5) 500 1 (mkC 1.5 (-0.1)) (mkC 1.5 (-0.1)) []
             all_outputs zeroed) Transmittance = 1.
Proof.
  assert (Hc : 0 < 0.5) by lra.
  assert (Hn : Cnorm (mkC 1.5 (-0.1)) <> 0)
    by (unfold Cnorm; cbn [re im]; lra).
  split; [exact Hc | split; [exact Hn | split; [reflexivity
                                              | split; [reflexivity |]]]].
  exact (proj1 (proj2 (simulate_matched 0.5 500 1 (mkC 1.5 (-0.1))
                         all_outputs zeroed Hc Hn)) eq_refl eq_refl).
Defined.

(** *** The quarter-wave layer *)

Lemma quarter_wave_matrix (n1 lambda : double) (n_inc : complex) :
  n1 <> 0 -> lambda <> 0 ->
  spec_layerP (RtoC 1) lambda n_inc (mkLayer (lambda / (4 * n1)) (RtoC n1))
  = mkMatrix22 (RtoC 0) (mkC 0 (- (1 / n1))) (mkC 0 (- n1)) (RtoC 0).
Proof.
  intros Hn Hl. unfold spec_layerP, spec_admittanceP.
  cbn [refractiveIndex thickness].
  rewrite spec_cosine_normal, Cdiv_one.
  replace (spec_phase (RtoC n1) (lambda / (4 * n1)) (RtoC 1) lambda)
    with (RtoC (- (PI / 2)))
    by (unfold spec_phase; apply complex_eq;
        cbn [re im CdivR Cmul CmulR RmulC RtoC]; field; split; assumption).
  unfold spec_layer_matrix.
  rewrite Ccos_real, Csin_real, cos_neg, sin_neg, cos_PI2, sin_PI2.
  apply matrix_eq; cbn [m11 m12 m21 m22];
    apply complex_eq; cbn [re im Cdiv Cmul onei RtoC]; field; exact Hn.
Qed.

Lemma quarter_wave_product (n1 lambda : double) (n_inc : complex) :
  n1 <> 0 -> lambda <> 0 ->
  fst (productMatrices (RtoC 1) lambda n_inc
         [mkLayer (lambda / (4 * n1)) (RtoC n1)])
  = mkMatrix22 (RtoC 0) (mkC 0 (- (1 / n1))) (mkC 0 (- n1)) (RtoC 0).
Proof.
  intros Hn Hl.
  rewrite productMatrices_in_range by (cbn [length]; unfold INT_MAX; lia).
  cbn [fst]. unfold spec_stack. cbn [fold_left].
  rewrite product_formula_identity_l. now apply quarter_wave_matrix.
Qed.

Lemma quarter_wave_r (n0 n1 : double) :
  0 < n0 -> 0 < n1 ->
  spec_rP (RtoC 1) (RtoC n0) (RtoC (n1 * n1 / n0))
    (mkMatrix22 (RtoC 0) (mkC 0 (- (1 / n1))) (mkC 0 (- n1)) (RtoC 0))
  = RtoC 0.
Proof.
  intros H0 H1. unfold spec_rP, spec_admittanceP, spec_r.
  rewrite exit_cosine_normal, !Cdiv_one.
  replace (Csub (spec_B _ _) (Cdiv (spec_C _ _) (RtoC n0))) with (RtoC 0).
  - apply Cdiv_zero_l.
  - apply complex_eq;
      cbn [re im spec_B spec_C Cdiv Csub Cadd Cmul RtoC m11 m12 m21 m22];
      field; lra.
Qed.

Lemma quarter_wave_t (n0 n1 : double) :
  0 < n0 -> 0 < n1 ->
  spec_tS (RtoC 1) (RtoC n0) (RtoC (n1 * n1 / n0))
    (mkMatrix22 (RtoC 0) (mkC 0 (- (1 / n1))) (mkC 0 (- n1)) (RtoC 0))
  = mkC 0 (n0 / n1).
Proof.
  intros H0 H1. unfold spec_tS, spec_admittanceS, spec_t, RdivC.
  rewrite exit_cosine_normal, !Cmul_1_r.
  apply complex_eq;
    cbn [re im spec_B spec_C Cdiv Csub Cadd Cmul RtoC m11 m12 m21 m22];
    field; split; try lra; nra.
Qed.

(** X13.  A single layer of real index [n1] with [n1^2 = n0 n2] and
    thickness [lambda / (4 n1)] between real media of indices [n0] and
    [n2], at normal incidence, reflects nothing: the reflectance stored is
    0 for every polarization angle.  The transmittance stored is
    [n0 / n2]. *)
Theorem simulate_quarter_wave (n0 n1 n2 lambda pol : double)
    (out : request) (mem : output -> double) :
  0 < n0 -> 0 < n1 -> 0 < n2 -> n1 * n1 = n0 * n2 -> lambda <> 0 ->
  let st := simulate (RtoC 1) lambda pol (RtoC n0) (RtoC n2)
              [mkLayer (lambda / (4 * n1)) (RtoC n1)] out mem in
  (reflectance out = true -> cell st Reflectance = 0)
  /\ (reflectance out = true -> transmittance out = true ->
      cell st Transmittance = n0 / n2).
Proof.
  intros H0 H1 H2 Hq Hl st. subst st.
  assert (Hn2 : n2 = n1 * n1 / n0) by (rewrite Hq; field; lra).
  destruct (simulate_normal_cells lambda pol (RtoC n0) (RtoC n2)
              [mkLayer (lambda / (4 * n1)) (RtoC n1)] out mem
              (RtoC 0) (mkC 0 (n0 / n1)))
    as (HR & HT & _).
  - rewrite quarter_wave_product by lra. rewrite Hn2. now apply quarter_wave_r.
  - rewrite quarter_wave_product by lra. rewrite Hn2. now apply quarter_wave_t.
  - split.
    + intros Hr. rewrite (HR Hr), Cabs_zero. unfold Rsqr. ring.
    + intros Hr Ht. rewrite (HT Hr Ht), Cabs_sqr. unfold Cnorm. cbn [re im].
      rewrite Hn2. field. lra.
Qed.

Lemma simulate_quarter_wave_witness :
  0 < 1 /\ 0 < 2 /\ 0 < 4 /\ 2 * 2 = 1 * 4 /\ 500 <> 0
  /\ reflectance all_outputs = true
  /\ cell (simulate (RtoC 1) 500 0.3 (RtoC 1) (RtoC 4)
             [mkLayer (500 / (4 * 2)) (RtoC 2)] all_outputs zeroed)
          Reflectance = 0.
Proof.
  assert (H0 : 0 < 1) by lra.
  assert (H1 : 0 < 2) by lra.
  assert (H2 : 0 < 4) by lra.
  assert (Hq : 2 * 2 = 1 * 4) by lra.
  assert (Hl : 500 <> 0) by lra.
  repeat (split; [first [assumption | reflexivity] |]).
  exact (proj1 (simulate_quarter_wave 1 2 4 500 0.3 all_outputs zeroed
                  H0 H1 H2 Hq Hl) eq_refl).
Defined.

(** ** The stored values in general *)

(** The three cells of the first block after a call. *)
Lemma blended_cells (c : complex) (lambda pol : double) (n_inc n_exit : complex)
    (layers : list Layer) (out : request) (mem : output -> double) :
  let MP := fst (productMatrices c lambda n_inc layers) in
  let MS := snd (productMatrices c lambda n_inc layers) in
  let st := simulate c lambda pol n_inc n_exit layers out mem in
  (reflectance out = true ->
   cell st Reflectance
   = spec_blend pol (spec_rP c n_inc n_exit MP) (spec_rS c n_inc n_exit MS))
  /\ (reflectance out = true -> transmittance out = true ->
      cell st Transmittance
      = spec_blend pol (spec_tP c n_inc n_exit MP) (spec_tS c n_inc n_exit MS))
  /\ (reflectance out = true -> transmittance out = true ->
      absorptance out = true ->
      cell st Absorptance = 1 - cell st Reflectance - cell st Transmittance).
Proof.
  intros MP MS st. subst st MP MS.
  by_cases_on_request out; repeat split; intros; try discriminate; reflexivity.
Qed.

Lemma blend_bounds (pol : double) (x y : complex) :
  0 <= spec_blend pol x y
  /\ Rmin ((Cabs x)²) ((Cabs y)²) <= spec_blend pol x y
     <= Rmax ((Cabs x)²) ((Cabs y)²).
Proof.
  unfold spec_blend.
  pose proof (sin2_cos2 pol) as H.
  pose proof (Rle_0_sqr (sin pol)) as Hs.
  pose proof (Rle_0_sqr (cos pol)) as Hc.
  pose proof (Rle_0_sqr (Cabs x)) as Hx.
  pose proof (Rle_0_sqr (Cabs y)) as Hy.
  pose proof (Rmin_l ((Cabs x)²) ((Cabs y)²)).
  pose proof (Rmin_r ((Cabs x)²) ((Cabs y)²)).
  pose proof (Rmax_l ((Cabs x)²) ((Cabs y)²)).
  pose proof (Rmax_r ((Cabs x)²) ((Cabs y)²)).
  repeat split; nra.
Qed.

(** X14.  The reflectance and the transmittance that a call stores are
    never negative; each lies between its value for the P polarization and
    its value for the S polarization; the absorptance stored is at most
    1.  The coefficients [r] and [t] are the ones of the call, with the exit
    cosine that the function takes, [exit_cosine]. *)
Theorem simulate_bounds (incidentCosTheta : complex)
    (lambda polarization : double) (nIncident nExit : complex)
    (layers : list Layer) (out : request) (mem : output -> double) :
  let MP := fst (productMatrices incidentCosTheta lambda nIncident layers) in
  let MS := snd (productMatrices incidentCosTheta lambda nIncident layers) in
  let rP := spec_rP incidentCosTheta nIncident nExit MP in
  let rS := spec_rS incidentCosTheta nIncident nExit MS in
  let tP := spec_tP incidentCosTheta nIncident nExit MP in
  let tS := spec_tS incidentCosTheta nIncident nExit MS in
  let st := simulate incidentCosTheta lambda polarization nIncident nExit
              layers out mem in
  (reflectance out = true ->
   0 <= cell st Reflectance
   /\ Rmin ((Cabs rP)²) ((Cabs rS)²) <= cell st Reflectance
      <= Rmax ((Cabs rP)²) ((Cabs rS)²))
  /\ (reflectance out = true -> transmittance out = true ->
      0 <= cell st Transmittance
      /\ Rmin ((Cabs tP)²) ((Cabs tS)²) <= cell st Transmittance
         <= Rmax ((Cabs tP)²) ((Cabs tS)²))
  /\ (reflectance out = true -> transmittance out = true ->
      absorptance out = true -> cell st Absorptance <= 1).
Proof.
  intros MP MS rP rS tP tS st.
  destruct (blended_cells incidentCosTheta lambda polarization nIncident nExit
              layers out mem) as (HR & HT & HA).
  fold MP MS st in HR, HT, HA. fold rP rS in HR. fold tP tS in HT.
  split; [| split].
  - intros Hr. rewrite (HR Hr). apply blend_bounds.
  - intros Hr Ht. rewrite (HT Hr Ht). apply blend_bounds.
  - intros Hr Ht Ha. rewrite (HA Hr Ht Ha), (HR Hr), (HT Hr Ht).
    pose proof (proj1 (blend_bounds polarization rP rS)).
    pose proof (proj1 (blend_bounds polarization tP tS)). lra.
Qed.

Lemma simulate_bounds_witness :
  reflectance all_outputs = true
  /\ 0 <= cell (simulate (RtoC 0.5) 500 1 (RtoC 1) (mkC 1.5 (-0.1))
                  [mkLayer 100 (mkC 2 (-1))] all_outputs zeroed) Reflectance.
Proof.
  split; [reflexivity |].
  exact (proj1 (proj1 (simulate_bounds (RtoC 0.5) 500 1 (RtoC 1)
                         (mkC 1.5 (-0.1)) [mkLayer 100 (mkC 2 (-1))]
                         all_outputs zeroed) eq_refl)).
Defined.

Lemma blend_P (x y : complex) : spec_blend 0 x y = (Cabs x)².
Proof. unfold spec_blend. rewrite cos_0, sin_0. unfold Rsqr. ring. Qed.

Lemma blend_S (x y : complex) : spec_blend (PI / 2) x y = (Cabs y)².
Proof. unfold spec_blend. rewrite cos_PI2, sin_PI2. unfold Rsqr. ring. Qed.

(** X15.  The polarization angle 0 means P and [PI / 2] means S: with the
    angle 0 the call stores [|r_P|^2] and [|t_P|^2], with the angle [PI / 2]
    it stores [|r_S|^2] and [|t_S|^2].  The coefficients are the ones of
    the call, with the exit cosine that the function takes,
    [exit_cosine]. *)
Theorem simulate_pure_polarization (incidentCosTheta : complex)
    (lambda : double) (nIncident nExit : complex)
    (layers : list Layer) (out : request) (mem : output -> double) :
  let MP := fst (productMatrices incidentCosTheta lambda nIncident layers) in
  let MS := snd (productMatrices incidentCosTheta lambda nIncident layers) in
  let stP := simulate incidentCosTheta lambda 0 nIncident nExit
               layers out mem in
  let stS := simulate incidentCosTheta lambda (PI / 2) nIncident nExit
               layers out mem in
  (reflectance out = true ->
   cell stP Reflectance = (Cabs (spec_rP incidentCosTheta nIncident nExit MP))²
   /\ cell stS Reflectance
      = (Cabs (spec_rS incidentCosTheta nIncident nExit MS))²)
  /\ (reflectance out = true -> transmittance out = true ->
      cell stP Transmittance
      = (Cabs (spec_tP incidentCosTheta nIncident nExit MP))²
      /\ cell stS Transmittance
         = (Cabs (spec_tS incidentCosTheta nIncident nExit MS))²).
Proof.
  intros MP MS stP stS.
  destruct (blended_cells incidentCosTheta lambda 0 nIncident nExit
              layers out mem) as (HR & HT & _).
  destruct (blended_cells incidentCosTheta lambda (PI / 2) nIncident nExit
              layers out mem) as (HR' & HT' & _).
  fold MP MS stP in HR, HT. fold MP MS stS in HR', HT'.
  split.
  - intros Hr. rewrite (HR Hr), (HR' Hr), blend_P, blend_S. split; reflexivity.
  - intros Hr Ht. rewrite (HT Hr Ht), (HT' Hr Ht), blend_P, blend_S.
    split; reflexivity.
Qed.

Lemma simulate_pure_polarization_witness :
  reflectance all_outputs = true
  /\ cell (simulate (RtoC 0.5) 500 0 (RtoC 1) (RtoC 1.5) [halfwave]
             all_outputs zeroed) Reflectance
     = (Cabs (spec_rP (RtoC 0.5) (RtoC 1) (RtoC 1.5)
                (fst (productMatrices (RtoC 0.5) 500 (RtoC 1) [halfwave]))))².
Proof.
  split; [reflexivity |].
  exact (proj1 (proj1 (simulate_pure_polarization (RtoC 0.5) 500 (RtoC 1)
                         (RtoC 1.5) [halfwave] all_outputs zeroed) eq_refl)).
Defined.

(** X16.  For every request, the call prints nothing or the warning once;
    it prints the warning exactly when reflectance and transmittance are
    both requested and the imaginary part of [nIncident] is not zero.  In
    particular a request for absorptance or transmittance without
    reflectance prints nothing. *)
Theorem simulate_warning (incidentCosTheta : complex)
    (lambda polarization : double) (nIncident nExit : complex)
    (layers : list Layer) (out : request) (mem : output -> double) :
  let st := simulate incidentCosTheta lambda polarization nIncident nExit
              layers out mem in
  (printed (events st) = [] \/ printed (events st) = [warning])
  /\ (printed (events st) = [warning]
      <-> reflectance out = true /\ transmittance out = true
          /\ im nIncident <> 0).
Proof.
  intros st. subst st.
  by_cases_on_request out;
    (split; [first [left; reflexivity | right; reflexivity] |]);
    (split; [intros H; first [discriminate H | tauto]
            | intros (H1 & H2 & H3);
              first [reflexivity | discriminate | contradiction]]).
Qed.

Lemma simulate_warning_witness :
  reflectance all_outputs = true /\ transmittance all_outputs = true
  /\ im (mkC 1 (-1)) <> 0
  /\ printed (events (simulate (RtoC 1) 500 0 (mkC 1 (-1)) (RtoC 1.5) []
                        all_outputs zeroed)) = [warning].
Proof.
  assert (Hk : im (mkC 1 (-1)) <> 0) by (cbn [im]; lra).
  split; [reflexivity | split; [reflexivity | split; [exact Hk |]]].
  exact (proj2 (proj2 (simulate_warning (RtoC 1) 500 0 (mkC 1 (-1)) (RtoC 1.5)
                         [] all_outputs zeroed))
           (conj eq_refl (conj eq_refl Hk))).
Defined.

(** ** [operator*=] on two objects *)

(** X17.  [a *= b] on two different objects leaves in [a] the product of
    the two matrices and changes no other object: [b] and every object
    other than [a] keep their value. *)
Theorem Matrix22_mul_assign_at_frame (this b : loc) (s : store) :
  this <> b ->
  Matrix22_mul_assign_at this b s this = product_formula (s this) (s b)
  /\ Matrix22_mul_assign_at this b s b = s b
  /\ (forall q, q <> this -> Matrix22_mul_assign_at this b s q = s q).
Proof.
  intros Hne.
  destruct (Matrix22_mul_assign_at_distinct this b s Hne) as [Hv Hframe].
  split; [| split].
  - rewrite Hv. apply Matrix22_mul_assign_formula.
  - apply Hframe. congruence.
  - exact Hframe.
Qed.

Lemma Matrix22_mul_assign_at_frame_witness :
  0%nat <> 1%nat
  /\ Matrix22_mul_assign_at 0%nat 1%nat
       (fun q => if Nat.eqb q 0 then skew else minus_identity) 1%nat
     = minus_identity.
Proof.
  assert (H : 0%nat <> 1%nat) by discriminate.
  split; [exact H |].
  exact (proj1 (proj2 (Matrix22_mul_assign_at_frame 0%nat 1%nat
                         (fun q => if Nat.eqb q 0 then skew else minus_identity)
                         H))).
Defined.

(** ** [asin] and [acos] are right inverses of [sin] and [cos] *)

Lemma Cabs_ge_re (u : complex) : - Cabs u <= re u <= Cabs u.
Proof.
  pose proof (Cabs_sqr u) as H. pose proof (Cabs_nonneg u) as H0.
  unfold Rsqr, Cnorm in H. split; nra.
Qed.

(** The principal square root is a square root. *)
Lemma Csqrt_sqr (u : complex) : Cmul (Csqrt u) (Csqrt u) = u.
Proof.
  pose proof (Cabs_ge_re u) as [Hlo Hhi].
  pose proof (Cabs_sqr u) as Hm. unfold Rsqr, Cnorm in Hm.
  assert (Hp : 0 <= (Cabs u + re u) / 2) by lra.
  assert (Hq : 0 <= (Cabs u - re u) / 2) by lra.
  pose proof (sqrt_sqrt _ Hp) as Hpp. pose proof (sqrt_sqrt _ Hq) as Hqq.
  assert (Hpq : sqrt ((Cabs u + re u) / 2) * sqrt ((Cabs u - re u) / 2)
                = Rabs (im u) / 2).
  { rewrite <- sqrt_mult by assumption.
    replace ((Cabs u + re u) / 2 * ((Cabs u - re u) / 2))
      with (Rabs (im u) / 2 * (Rabs (im u) / 2)).
    - apply sqrt_square. pose proof (Rabs_pos (im u)). lra.
    - replace (Rabs (im u) / 2 * (Rabs (im u) / 2))
        with (Rabs (im u) * Rabs (im u) / 4) by field.
      rewrite <- Rabs_mult, Rabs_right by nra. nra. }
  unfold Csqrt. fold (Cabs u).
  set (p := sqrt ((Cabs u + re u) / 2)) in *.
  set (q := sqrt ((Cabs u - re u) / 2)) in *.
  apply complex_eq; cbn [re im Cmul].
  - destruct (Rle_dec 0 (im u)); nra.
  - destruct (Rle_dec 0 (im u)) as [Hb | Hb].
    + rewrite Rabs_right in Hpq by lra. nra.
    + rewrite Rabs_left in Hpq by lra. nra.
Qed.

(** The polar form of a non-zero complex number. *)
Lemma polar_form (w : complex) :
  Cabs w <> 0 ->
  cos (Carg w) = re w / Cabs w /\ sin (Carg w) = im w / Cabs w.
Proof.
  intros Hne. pose proof (Cabs_nonneg w) as H0.
  pose proof (Cabs_sqr w) as Hm. unfold Rsqr, Cnorm in Hm.
  destruct w as [x y]. cbn [re im] in *. unfold Carg, atan2. cbn [re im].
  set (rho := Cabs (mkC x y)) in *.
  assert (Hrho : 0 < rho) by lra.
  destruct (Rlt_dec 0 x) as [Hx | Hx].
  - assert (Hs : sqrt (1 + (y / x)²) = rho / x).
    { apply sqrt_lem_1.
      - pose proof (Rle_0_sqr (y / x)). lra.
      - apply Rlt_le, Rdiv_lt_0_compat; assumption.
      - unfold Rsqr.
        replace (rho / x * (rho / x)) with (rho * rho / (x * x)) by (field; lra).
        rewrite Hm. field. lra. }
    rewrite cos_atan, sin_atan, Hs. split; field; lra.
  - destruct (Rlt_dec x 0) as [Hx' | Hx'].
    + assert (Hs : sqrt (1 + (y / x)²) = rho / - x).
      { apply sqrt_lem_1.
        - pose proof (Rle_0_sqr (y / x)). lra.
        - apply Rlt_le, Rdiv_lt_0_compat; lra.
        - unfold Rsqr.
          replace (rho / - x * (rho / - x)) with (rho * rho / (x * x))
            by (field; lra).
          rewrite Hm. field. lra. }
      destruct (Rle_dec 0 y).
      * rewrite cos_plus, sin_plus, cos_PI, sin_PI, cos_atan, sin_atan, Hs.
        split; field; lra.
      * rewrite cos_minus, sin_minus, cos_PI, sin_PI, cos_atan, sin_atan, Hs.
        split; field; lra.
    + assert (x = 0) by lra. subst x.
      assert (Hyy : rho * rho = y * y) by lra.
      destruct (Rlt_dec 0 y) as [Hy | Hy].
      * assert (Hr : rho = y) by nra. rewrite cos_PI2, sin_PI2, Hr.
        split; field; lra.
      * destruct (Rlt_dec y 0) as [Hy' | Hy'].
        -- assert (Hr : rho = - y) by nra.
           rewrite cos_neg, sin_neg, cos_PI2, sin_PI2, Hr. split; field; lra.
        -- assert (y = 0) by lra. subst y. nra.
Qed.

Lemma cosh_ln (rho : R) : 0 < rho -> cosh (- ln rho) = (rho + / rho) / 2.
Proof.
  intros H. unfold cosh. rewrite Ropp_involutive, exp_Ropp, exp_ln by exact H.
  field. lra.
Qed.

Lemma sinh_ln (rho : R) : 0 < rho -> sinh (- ln rho) = (/ rho - rho) / 2.
Proof.
  intros H. unfold sinh. rewrite Ropp_involutive, exp_Ropp, exp_ln by exact H.
  field. lra.
Qed.

(** [sin (- i log w)] and [cos (- i log w)], from the parts of [w]. *)
Lemma Csin_log (w : complex) :
  Cnorm w <> 0 ->
  Csin (Cmul (Cneg onei) (Clog w))
  = mkC (im w * (1 + / Cnorm w) / 2) (re w * (/ Cnorm w - 1) / 2).
Proof.
  intros Hn. pose proof (Cabs_nonneg w) as H0.
  pose proof (Cabs_sqr w) as Hm. unfold Rsqr in Hm.
  assert (Hne : Cabs w <> 0) by (intros Hz; rewrite Hz in Hm; lra).
  destruct (polar_form w Hne) as [Hc Hs].
  replace (Cmul (Cneg onei) (Clog w)) with (mkC (Carg w) (- ln (Cabs w)))
    by (unfold Clog; apply complex_eq; cbn [re im Cmul Cneg onei]; ring).
  unfold Csin. cbn [re im].
  rewrite cosh_ln, sinh_ln, Hc, Hs by lra. rewrite <- Hm.
  apply complex_eq; cbn [re im]; field; exact Hne.
Qed.

Lemma Ccos_log (w : complex) :
  Cnorm w <> 0 ->
  Ccos (Cmul (Cneg onei) (Clog w))
  = mkC (re w * (1 + / Cnorm w) / 2) (im w * (1 - / Cnorm w) / 2).
Proof.
  intros Hn. pose proof (Cabs_nonneg w) as H0.
  pose proof (Cabs_sqr w) as Hm. unfold Rsqr in Hm.
  assert (Hne : Cabs w <> 0) by (intros Hz; rewrite Hz in Hm; lra).
  destruct (polar_form w Hne) as [Hc Hs].
  replace (Cmul (Cneg onei) (Clog w)) with (mkC (Carg w) (- ln (Cabs w)))
    by (unfold Clog; apply complex_eq; cbn [re im Cmul Cneg onei]; ring).
  unfold Ccos. cbn [re im].
  rewrite cosh_ln, sinh_ln, Hc, Hs by lra. rewrite <- Hm.
  apply complex_eq; cbn [re im]; field; exact Hne.
Qed.

(** When [(x + i y) (X + i Y) = 1], [X + i Y] is the conjugate of
    [x + i y] divided by its squared modulus. *)
Lemma inverse_parts (x y X Y : R) :
  x * X - y * Y = 1 -> x * Y + y * X = 0 ->
  x * x + y * y <> 0
  /\ x * / (x * x + y * y) = X /\ y * / (x * x + y * y) = - Y.
Proof.
  intros H1 H2.
  assert (HX : X * (x * x + y * y) = x).
  { replace (X * (x * x + y * y))
      with (x * (x * X - y * Y) + y * (x * Y + y * X)) by ring.
    rewrite H1, H2. ring. }
  assert (HY : - Y * (x * x + y * y) = y).
  { replace (- Y * (x * x + y * y))
      with (y * (x * X - y * Y) - x * (x * Y + y * X)) by ring.
    rewrite H1, H2. ring. }
  assert (Hn : x * x + y * y <> 0).
  { intros Hz. rewrite Hz, Rmult_0_r in HX, HY. subst x y.
    rewrite !Rmult_0_l in H1. lra. }
  repeat split; [exact Hn | |].
  - rewrite <- HX at 1. field. exact Hn.
  - rewrite <- HY at 1. field. exact Hn.
Qed.

(** X18.  In exact arithmetic [asin] and [acos] are right inverses of the
    complex sine and cosine: [sin (asin z) = z] and [cos (acos z) = z] for
    every complex [z], on the branch cuts too. *)
Theorem sin_asin_cos_acos (z : complex) :
  Csin (asin z) = z /\ Ccos (acos z) = z.
Proof.
  split.
  - unfold asin.
    set (s := Csqrt (RsubC 1 (Cmul z z))).
    pose proof (Csqrt_sqr (RsubC 1 (Cmul z z))) as Hs. fold s in Hs.
    apply (f_equal re) in Hs as Hre. apply (f_equal im) in Hs as Him.
    destruct z as [p q]. destruct s as [e f].
    cbn [re im Cmul RsubC] in Hre, Him.
    destruct (inverse_parts (0 * p - 1 * q + e) (0 * q + 1 * p + f)
                (e + q) (f - p)) as (Hn & HX & HY); [nra | nra |].
    rewrite Csin_log by (unfold Cnorm; cbn [re im Cadd Cmul onei]; exact Hn).
    unfold Cnorm. cbn [re im Cadd Cmul onei].
    apply complex_eq; cbn [re im].
    + replace ((0 * q + 1 * p + f)
               * (1 + / ((0 * p - 1 * q + e) * (0 * p - 1 * q + e)
                         + (0 * q + 1 * p + f) * (0 * q + 1 * p + f))) / 2)
        with ((0 * q + 1 * p + f
               + (0 * q + 1 * p + f)
                 * / ((0 * p - 1 * q + e) * (0 * p - 1 * q + e)
                      + (0 * q + 1 * p + f) * (0 * q + 1 * p + f))) / 2)
        by (unfold Rdiv; ring).
      rewrite HY. field.
    + replace ((0 * p - 1 * q + e)
               * (/ ((0 * p - 1 * q + e) * (0 * p - 1 * q + e)
                     + (0 * q + 1 * p + f) * (0 * q + 1 * p + f)) - 1) / 2)
        with (((0 * p - 1 * q + e)
               * / ((0 * p - 1 * q + e) * (0 * p - 1 * q + e)
                    + (0 * q + 1 * p + f) * (0 * q + 1 * p + f))
               - (0 * p - 1 * q + e)) / 2)
        by (unfold Rdiv; ring).
      rewrite HX. field.
  - unfold acos.
    set (s := Csqrt (CsubR (Cmul z z) 1)).
    pose proof (Csqrt_sqr (CsubR (Cmul z z) 1)) as Hs. fold s in Hs.
    apply (f_equal re) in Hs as Hre. apply (f_equal im) in Hs as Him.
    destruct z as [p q]. destruct s as [e f].
    cbn [re im Cmul CsubR] in Hre, Him.
    destruct (inverse_parts (p + e) (q + f) (p - e) (q - f))
      as (Hn & HX & HY); [nra | nra |].
    rewrite Ccos_log by (unfold Cnorm; cbn [re im Cadd]; exact Hn).
    unfold Cnorm. cbn [re im Cadd].
    apply complex_eq; cbn [re im].
    + replace ((p + e) * (1 + / ((p + e) * (p + e) + (q + f) * (q + f))) / 2)
        with ((p + e + (p + e) * / ((p + e) * (p + e) + (q + f) * (q + f))) / 2)
        by (unfold Rdiv; ring).
      rewrite HX. field.
    + replace ((q + f) * (1 - / ((p + e) * (p + e) + (q + f) * (q + f))) / 2)
        with ((q + f - (q + f) * / ((p + e) * (p + e) + (q + f) * (q + f))) / 2)
        by (unfold Rdiv; ring).
      rewrite HY. field.
Qed.

(** ** [asin] and [acos] with signed zeros *)

(** X19.  With signed zeros, on a real argument [complex(x, 0.0)]: [acos]
    returns the arc cosine of [x] for [0 < x < 1], and minus the arc cosine
    of [x] for [-1 < x < 0]. *)
Theorem acos_signed_zero (x : R) :
  (0 < x < 1 ->
   SignedZero.val (SignedZero.re (SignedZero.acos (SignedZero.real x)))
   = Ratan.acos x)
  /\ (-1 < x < 0 ->
      SignedZero.val (SignedZero.re (SignedZero.acos (SignedZero.real x)))
      = - Ratan.acos x).
Proof.
  split; intros H.
  - apply acos_positive_real. exact H.
  - apply acos_negative_real. exact H.
Qed.

Lemma acos_signed_zero_witness :
  -1 < - (1 / 4) < 0
  /\ SignedZero.val
       (SignedZero.re (SignedZero.acos (SignedZero.real (- (1 / 4)))))
     = - Ratan.acos (- (1 / 4)).
Proof.
  assert (H : -1 < - (1 / 4) < 0) by lra.
  split; [exact H |].
  exact (proj2 (acos_signed_zero (- (1 / 4))) H).
Defined.

Section RealSegment.

Import SignedZero.

Variable x : R.
Hypothesis Hx : -1 <= x <= 1.

(** In the right half plane and on the imaginary axis away from zero the
    sign bits play no part in [std::atan2]. *)
Lemma Datan2_val (u v : sdouble) :
  0 < val v \/ (val v = 0 /\ val u <> 0) ->
  val (Datan2 u v) = atan2 (val u) (val v).
Proof.
  intros H. unfold Datan2, atan2.
  destruct (Rlt_dec 0 (val v)) as [Hv | Hv]; [reflexivity |].
  destruct H as [H | [H Hu]]; [lra |].
  destruct (Rlt_dec (val v) 0) as [Hv' | Hv']; [lra |].
  destruct (Rlt_dec 0 (val u)) as [Hu' | Hu']; [reflexivity |].
  destruct (Rlt_dec (val u) 0) as [Hu'' | Hu'']; [reflexivity | lra].
Qed.

Lemma asin_sqrt_val :
  val (re (Csqrt (RsubC (lit 1) (Cmul (real x) (real x))))) = sqrt (1 - x²)
  /\ val (im (Csqrt (RsubC (lit 1) (Cmul (real x) (real x))))) = 0.
Proof.
  pose proof (one_minus_sqr_nonneg x Hx) as Hs. unfold Rsqr in *.
  unfold Csqrt, Cabs, RsubC, Cmul, real, Dsub, Dadd, Dmul, Dopp, lit.
  cbn [re im val signbit].
  replace ((- (x * x + - (0 * 0)) + 1) * (- (x * x + - (0 * 0)) + 1)
           + - (x * 0 + 0 * x) * - (x * 0 + 0 * x))
    with ((1 - x * x) * (1 - x * x)) by ring.
  rewrite sqrt_square by exact Hs.
  replace ((1 - x * x + (- (x * x + - (0 * 0)) + 1)) / 2) with (1 - x * x)
    by field.
  replace ((1 - x * x - (- (x * x + - (0 * 0)) + 1)) / 2) with 0 by field.
  rewrite sqrt_0. split; [reflexivity | ring].
Qed.

(** The argument of the logarithm in [asin]: the point
    [(sqrt (1 - x^2), x)]. *)
Lemma asin_point_val :
  val (re (Cadd (Cmul onei (real x))
                (Csqrt (RsubC (lit 1) (Cmul (real x) (real x))))))
  = sqrt (1 - x²)
  /\ val (im (Cadd (Cmul onei (real x))
                   (Csqrt (RsubC (lit 1) (Cmul (real x) (real x))))))
     = x.
Proof.
  destruct asin_sqrt_val as [Hre Him].
  set (s := Csqrt (RsubC (lit 1) (Cmul (real x) (real x)))) in *.
  unfold Cadd, Cmul, onei, real, Dsub, Dadd, Dmul, Dopp, lit.
  cbn [re im val]. rewrite Hre, Him. split; ring.
Qed.

(** With signed zeros too, [asin] is the arc sine on the real segment. *)
Lemma asin_real_segment :
  val (re (asin (real x))) = Ratan.asin x /\ val (im (asin (real x))) = 0.
Proof.
  destruct asin_point_val as [Hre Him].
  pose proof (one_minus_sqr_nonneg x Hx) as Hs.
  unfold asin.
  set (w := Cadd (Cmul onei (real x))
                 (Csqrt (RsubC (lit 1) (Cmul (real x) (real x))))) in *.
  assert (Habs : ln (Cabs w) = 0).
  { unfold Cabs. rewrite Hre, Him, sqrt_sqrt by exact Hs.
    replace (1 - x² + x * x) with 1 by (unfold Rsqr; ring).
    rewrite sqrt_1. apply ln_1. }
  assert (Harg : val (Datan2 (im w) (re w)) = Ratan.asin x).
  { rewrite Datan2_val.
    - rewrite Hre, Him. apply atan2_asin. exact Hx.
    - rewrite Hre, Him.
      destruct (Req_dec x 1) as [-> | H1];
        [right; split; [rewrite Rsqr_1, Rminus_diag; apply sqrt_0 | lra] |].
      destruct (Req_dec x (-1)) as [-> | H2].
      + right. split; [| lra].
        replace (1 - (-1)²) with 0 by (unfold Rsqr; ring). apply sqrt_0.
      + left. apply sqrt_one_minus_sqr_pos. lra. }
  unfold Clog. rewrite Habs.
  unfold Cmul, Cneg, onei, lit, Dsub, Dadd, Dmul, Dopp.
  cbn [re im val]. rewrite Harg. split; ring.
Qed.

End RealSegment.

(** X20.  With signed zeros too, [asin] is the arc sine on real arguments:
    for every real [x] of [[-1, 1]], [asin(complex(x, 0.0))] has the real
    part [asin x] and an imaginary part of value zero. *)
Theorem asin_signed_zero (x : R) :
  -1 <= x <= 1 ->
  SignedZero.val (SignedZero.re (SignedZero.asin (SignedZero.real x)))
  = Ratan.asin x
  /\ SignedZero.val (SignedZero.im (SignedZero.asin (SignedZero.real x))) = 0.
Proof. intros H. apply asin_real_segment. exact H. Qed.

Lemma asin_signed_zero_witness :
  -1 <= - (1 / 2) <= 1
  /\ SignedZero.val
       (SignedZero.re (SignedZero.asin (SignedZero.real (- (1 / 2)))))
     = Ratan.asin (- (1 / 2)).
Proof.
  assert (H : -1 <= - (1 / 2) <= 1) by lra.
  split; [exact H |].
  exact (proj1 (asin_signed_zero (- (1 / 2)) H)).
Defined.

(** ** [operator*=] on one object *)

(** X21.  [A *= A], with both operands the same object, leaves the first
    row of the square of [A] in [A]; the second row is computed from the
    new first row.  The whole result is the square when the entry [m21] of
    [A] is zero. *)
Theorem Matrix22_mul_assign_at_self (p : loc) (s : store) :
  let A := s p in
  let A' := Matrix22_mul_assign_at p p s p in
  m11 A' = m11 (product_formula A A)
  /\ m12 A' = m12 (product_formula A A)
  /\ m21 A' = Cadd (Cmul (m21 A) (m11 A')) (Cmul (m22 A) (m21 A))
  /\ m22 A' = Cadd (Cmul (m21 A) (m12 A')) (Cmul (m22 A) (m22 A))
  /\ (m21 A = RtoC 0 -> A' = product_formula A A).
Proof.
  intros A A'. subst A A'. unfold Matrix22_mul_assign_at.
  rewrite !upd_same.
  cbn [m11 m12 m21 m22 set_m11 set_m12 set_m21 set_m22 product_formula].
  repeat split.
  intros Hz. apply matrix_eq;
    cbn [m11 m12 m21 m22 set_m11 set_m12 set_m21 set_m22 product_formula];
    try reflexivity; rewrite Hz; complex_ring.
Qed.

Lemma Matrix22_mul_assign_at_self_witness :
  m21 (mkMatrix22 (RtoC 2) (RtoC 3) (RtoC 0) (RtoC 5)) = RtoC 0
  /\ Matrix22_mul_assign_at 0%nat 0%nat
       (fun _ => mkMatrix22 (RtoC 2) (RtoC 3) (RtoC 0) (RtoC 5)) 0%nat
     = product_formula (mkMatrix22 (RtoC 2) (RtoC 3) (RtoC 0) (RtoC 5))
         (mkMatrix22 (RtoC 2) (RtoC 3) (RtoC 0) (RtoC 5)).
Proof.
  split; [reflexivity |].
  exact (proj2 (proj2 (proj2 (proj2
           (Matrix22_mul_assign_at_self 0%nat
              (fun _ => mkMatrix22 (RtoC 2) (RtoC 3) (RtoC 0) (RtoC 5))))))
           eq_refl).
Defined.

(** ** Total reflection at a bare interface *)

Lemma Cabs_unit (z : complex) : Cnorm z = 1 -> Cabs z = 1.
Proof. intros H. unfold Cabs. rewrite H. apply sqrt_1. Qed.

(** The quotient of [1 - i w] by its conjugate has the modulus 1. *)
Lemma Cabs_mirror (w : R) : Cabs (Cdiv (mkC 1 (- w)) (mkC 1 w)) = 1.
Proof.
  apply Cabs_unit. unfold Cnorm. cbn [re im Cdiv]. field. nra.
Qed.

Section TotalReflection.

Variables x a e : R.
Hypothesis Hx : 0 < x <= 1.
Hypothesis Ha : 0 < a.
Hypothesis He : 0 < e.
Hypothesis Hc : 1 < (1 - x * x) * (a / e) * (a / e).

(** The exit cosine is [- i kappa]. *)
Let kappa := sqrt ((1 - x * x) * (a / e) * (a / e) - 1).

Lemma kappa_pos : 0 < kappa.
Proof. apply sqrt_lt_R0. lra. Qed.

Lemma total_reflection_rP :
  spec_rP (RtoC x) (RtoC a) (RtoC e) identity
  = Cdiv (mkC 1 (- (e * x / (kappa * a)))) (mkC 1 (e * x / (kappa * a))).
Proof.
  pose proof kappa_pos as Hk.
  unfold spec_rP, spec_admittanceP. cbv zeta.
  rewrite exit_cosine_evanescent by (try assumption; lra). fold kappa.
  unfold spec_r. f_equal;
    apply complex_eq;
    cbn [re im spec_B spec_C Cdiv Csub Cadd Cmul RtoC identity m11 m12 m21 m22];
    field; repeat split; try lra; nra.
Qed.

Lemma total_reflection_rS :
  spec_rS (RtoC x) (RtoC a) (RtoC e) identity
  = Cdiv (mkC 1 (e * kappa / (a * x))) (mkC 1 (- (e * kappa / (a * x)))).
Proof.
  pose proof kappa_pos as Hk.
  unfold spec_rS, spec_admittanceS. cbv zeta.
  rewrite exit_cosine_evanescent by (try assumption; lra). fold kappa.
  unfold spec_r. f_equal;
    apply complex_eq;
    cbn [re im spec_B spec_C Cdiv Csub Cadd Cmul RtoC identity m11 m12 m21 m22];
    field; repeat split; try lra; nra.
Qed.

Lemma total_reflection_abs :
  Cabs (spec_rP (RtoC x) (RtoC a) (RtoC e) identity) = 1
  /\ Cabs (spec_rS (RtoC x) (RtoC a) (RtoC e) identity) = 1.
Proof.
  rewrite total_reflection_rP, total_reflection_rS. split.
  - apply Cabs_mirror.
  - replace (e * kappa / (a * x)) with (- - (e * kappa / (a * x))) at 1 by ring.
    apply Cabs_mirror.
Qed.

End TotalReflection.

(** X22.  Total reflection.  With no layer, between two real media of
    positive indices and for a real incident cosine beyond the critical
    angle, that is [(1 - cos_inc^2) (n_inc / n_exit)^2 > 1], the call stores
    the reflectance 1 for every polarization, and [psi = PI / 4]. *)
Theorem simulate_total_reflection (x a e : R) (lambda pol : double)
    (out : request) (mem : output -> double) :
  0 < x <= 1 -> 0 < a -> 0 < e -> 1 < (1 - x * x) * (a / e) * (a / e) ->
  let st := simulate (RtoC x) lambda pol (RtoC a) (RtoC e) [] out mem in
  (reflectance out = true -> cell st Reflectance = 1)
  /\ (psi out = true -> delta out = true -> cell st Psi = PI / 4).
Proof.
  intros Hx Ha He Hc st. subst st.
  destruct (total_reflection_abs x a e Hx Ha He Hc) as [HP HS].
  rewrite simulate_refines, productMatrices_nil. cbn [fst snd].
  unfold spec_simulate.
  destruct out as [r t ab p d];
    cbn [reflectance transmittance absorptance psi delta].
  rewrite HP, HS.
  assert (Hb : spec_blend pol (spec_rP (RtoC x) (RtoC a) (RtoC e) identity)
                 (spec_rS (RtoC x) (RtoC a) (RtoC e) identity) = 1).
  { unfold spec_blend. rewrite HP, HS. pose proof (sin2_cos2 pol) as H.
    unfold Rsqr in *. lra. }
  rewrite Hb.
  split.
  - intros ->. destruct t, ab, p, d; try destruct (Req_dec_T _ 0);
      cbn [andb store_to fprintf_stderr load cell events output_eqb];
      reflexivity.
  - intros -> ->. destruct r, t, ab; try destruct (Req_dec_T _ 0);
      cbn [andb store_to fprintf_stderr load cell events output_eqb];
      apply atan2_same; lra.
Qed.

Lemma simulate_total_reflection_witness :
  0 < 3 / 5 <= 1
  /\ 1 < (1 - 3 / 5 * (3 / 5)) * (25 / 16 / 1) * (25 / 16 / 1)
  /\ cell (simulate (RtoC (3 / 5)) 500 0 (RtoC (25 / 16)) (RtoC 1) []
             all_outputs zeroed) Reflectance = 1.
Proof.
  assert (Hx : 0 < 3 / 5 <= 1) by lra.
  assert (Hc : 1 < (1 - 3 / 5 * (3 / 5)) * (25 / 16 / 1) * (25 / 16 / 1))
    by lra.
  split; [exact Hx | split; [exact Hc |]].
  apply (simulate_total_reflection (3 / 5) (25 / 16) 1 500 0 all_outputs zeroed);
    try lra; reflexivity.
Defined.

(** *** The sign of delta *)

Lemma glass_air_rP :
  spec_rP (RtoC (3 / 5)) (RtoC (25 / 16)) (RtoC 1) identity
  = mkC (11529 / 19721) (- (16000 / 19721)).
Proof.
  unfold spec_rP, spec_admittanceP. cbv zeta. rewrite exit_cosine_glass_air.
  apply complex_eq;
    cbn [re im spec_r spec_B spec_C Cdiv Csub Cadd Cmul RtoC identity
         m11 m12 m21 m22];
    field.
Qed.

Lemma glass_air_rS :
  spec_rS (RtoC (3 / 5)) (RtoC (25 / 16)) (RtoC 1) identity
  = mkC (9 / 41) (40 / 41).
Proof.
  unfold spec_rS, spec_admittanceS. cbv zeta. rewrite exit_cosine_glass_air.
  apply complex_eq;
    cbn [re im spec_r spec_B spec_C Cdiv Csub Cadd Cmul RtoC identity
         m11 m12 m21 m22];
    field.
Qed.

Lemma Carg_right (z : complex) : 0 < re z -> Carg z = atan (im z / re z).
Proof.
  intros H. unfold Carg, atan2. destruct (Rlt_dec 0 (re z)); [reflexivity | lra].
Qed.

(** X23.  From the index [1.5625] to the index 1 at the incident cosine
    [0.6], with no layer, the function takes the exit cosine [(0, -0.75)]:
    the reflection coefficients are [r_P = (11529 - 16000 i) / 19721] and
    [r_S = (9 + 40 i) / 41], and the call stores the negative
    [delta = - (atan (16000 / 11529) + atan (40 / 9))], about [-2.296]. *)
Theorem simulate_glass_air_delta (lambda pol : double) (r t a : bool)
    (mem : output -> double) :
  let st := simulate (RtoC (3 / 5)) lambda pol (RtoC (25 / 16)) (RtoC 1) []
              (mkRequest r t a true true) mem in
  exit_cosine (RtoC (3 / 5)) (RtoC (25 / 16)) (RtoC 1) = mkC 0 (- (3 / 4))
  /\ cell st Delta = - (atan (16000 / 11529) + atan (40 / 9))
  /\ cell st Delta < 0.
Proof.
  intros st. subst st.
  split; [apply exit_cosine_glass_air |].
  rewrite simulate_refines, productMatrices_nil. cbn [fst snd].
  unfold spec_simulate.
  cbn [reflectance transmittance absorptance psi delta andb].
  rewrite glass_air_rP, glass_air_rS.
  assert (HD : Carg (mkC (11529 / 19721) (- (16000 / 19721)))
               - Carg (mkC (9 / 41) (40 / 41))
               = - (atan (16000 / 11529) + atan (40 / 9))).
  { rewrite !Carg_right by (cbn [re]; lra). cbn [re im].
    replace (- (16000 / 19721) / (11529 / 19721)) with (- (16000 / 11529))
      by field.
    replace (40 / 41 / (9 / 41)) with (40 / 9) by field.
    rewrite atan_opp. ring. }
  assert (H1 : 0 < atan (16000 / 11529))
    by (rewrite <- atan_0; apply atan_increasing; lra).
  assert (H2 : 0 < atan (40 / 9))
    by (rewrite <- atan_0; apply atan_increasing; lra).
  destruct r, t, a; try destruct (Req_dec_T _ 0);
    cbn [andb store_to fprintf_stderr load cell events output_eqb];
    rewrite HD; (split; [reflexivity | lra]).
Qed.
